(** * Merkle root computation, positional node hashes and leaf diffing

    A shallow embedding of [src/consensus/merkle.cpp]
    ([ComputeMerkleRoot], [CalcTreeWidth], [CalcTreeHeight], [Hash],
    [CalcHash], [findDiffLeaf]) together with the properties that the
    specification states about them.

    Conventions of the embedding.
    - [uint64_t] and [size_t] values are integers in [0, 2^64); every
      arithmetic operation of the source is followed by [wrap64].
    - [uint256] is a 256-bit blob compared bit for bit; it is represented by
      the integer it encodes, the default-constructed value being [0].
    - [std::vector<uint256>] is a [list uint256]; [size()] is [size].
    - A call either returns a value or stops abnormally: [assert] failure,
      an access outside the vector, or a shift by 64 or more bits (both
      undefined in C++).  Loops whose bound is not syntactic run on fuel;
      running out of fuel is a fourth outcome, shown impossible below. *)

From Stdlib Require Import ZArith List Bool Lia PeanoNat.
Import ListNotations.

Local Open Scope Z_scope.

(** ** Outcomes of a call *)

Inductive fault : Type :=
| AssertionFailed   (* assert(...) evaluated to false *)
| OutOfRange        (* operator[] outside [0, size()) *)
| ShiftOverflow     (* << or >> by at least the width of the operand *)
| FuelExhausted.    (* the model ran out of fuel; never a program outcome *)

Inductive result (A : Type) : Type :=
| Ok (a : A)
| Fault (f : fault).

Arguments Ok {A} a.
Arguments Fault {A} f.

Definition bind {A B : Type} (r : result A) (k : A -> result B) : result B :=
  match r with
  | Ok a => k a
  | Fault f => Fault f
  end.

Notation "x <- r ;; k" := (bind r (fun x => k))
  (at level 61, r at next level, right associativity).

Notation "' p <- r ;; k" := (bind r (fun x => let p := x in k))
  (at level 61, p pattern, r at next level, right associativity).

(** ** Machine integers and hashes *)

Definition wrap64 (x : Z) : Z := x mod 2 ^ 64.

Definition uint256 : Type := Z.

Definition uint256_zero : uint256 := 0.

Definition uint256_eqb (a b : uint256) : bool := Z.eqb a b.

Definition size (hashes : list uint256) : Z := Z.of_nat (length hashes).

(** Every [std::vector<uint256>] holds 32-byte elements in a 64-bit address
    space, so its [size()] is below [2^59]; the results below that involve
    [CalcTreeWidth] hold up to [2^63] leaves. *)
Definition max_leaves : Z := 2 ^ 63.

(** ** Tree geometry (merkle.cpp, lines 64-80) *)

Definition CalcTreeWidth (height leaves : Z) : result Z :=
  if 64 <=? height then Fault ShiftOverflow
  else Ok (Z.shiftr (wrap64 (wrap64 (leaves + wrap64 (Z.shiftl 1 height)) - 1)) height).

Fixpoint CalcTreeHeight_loop (fuel : nat) (leaves height : Z) : result Z :=
  if 1 <? leaves then
    match fuel with
    | O => Fault FuelExhausted
    | S fuel' =>
        let leaves1 :=
          if negb (Z.land leaves 1 =? 0) then wrap64 (leaves + 1) else leaves in
        CalcTreeHeight_loop fuel' (Z.shiftr leaves1 1) (wrap64 (height + 1))
    end
  else Ok height.

Definition CalcTreeHeight (hashes : list uint256) : result Z :=
  CalcTreeHeight_loop 64 (size hashes) 0.

(** ** Number of folding rounds

    [folds_in len k]: a level of [len] nodes is reduced to at most one node
    by exactly [k] halvings (rounding up). *)

Inductive folds_in : nat -> nat -> Prop :=
| folds_done len : (len <= 1)%nat -> folds_in len 0
| folds_step len k :
    (1 < len)%nat -> folds_in ((len + 1) / 2) k -> folds_in len (S k).

(** A small stand-in for the hash, used to run the functions on concrete
    inputs: the Cantor-style pairing [(a+b)^2 + b + 1], cut to 256 bits. *)
Definition toy_hash (a b : uint256) : uint256 :=
  ((a + b) * (a + b) + b + 1) mod 2 ^ 256.

Section Merkle.

(** Double SHA-256 of the 64 bytes [a ++ b].  The hashing primitives
    ([crypto/sha256.h], [hash.h]) are external to this file. *)
Variable sha256d : uint256 -> uint256 -> uint256.

(** Modelled from the spec: [CHash256], the hasher behind the template [Hash]
    of merkle.cpp (lines 82-91), is not part of the sources.  [Hash] writes
    the first range, then the second, and finalizes: the "single
    cryptographic hash over the concatenation of two fixed-width values
    (order-sensitive: left then right)". *)
Definition Hash (p1 p2 : uint256) : uint256 := sha256d p1 p2.

(** Modelled from the spec: [SHA256D64(out, in, blocks)] is not part of the
    sources.  It hashes [blocks] consecutive 64-byte inputs, that is
    [blocks] adjacent pairs of the buffer, with "the same ... hash operation"
    as [Hash], and stores the 32-byte outputs consecutively.  Called in
    place ([out = in = hashes[0].begin()]) it overwrites the first [blocks]
    elements and leaves the others as they were. *)
Fixpoint sha256d64_blocks (input : list uint256) (blocks : nat) : list uint256 :=
  match blocks, input with
  | S blocks', a :: b :: rest => sha256d a b :: sha256d64_blocks rest blocks'
  | _, _ => []
  end.

Definition SHA256D64 (hashes : list uint256) (blocks : nat) : list uint256 :=
  let out := sha256d64_blocks hashes blocks in
  out ++ skipn (length out) hashes.

(** ** Root computation (merkle.cpp, lines 45-62) *)

(** The [for] loop of lines 49-51: [pos] runs over 0, 2, 4, ... while
    [pos + 1 < size()]. *)
Fixpoint scan_pairs (hashes : list uint256) (mutation : bool) : bool :=
  match hashes with
  | a :: b :: rest =>
      scan_pairs rest (if uint256_eqb a b then true else mutation)
  | _ => mutation
  end.

(** [hashes.back()] and [hashes.push_back(x)]; [resize] only ever shrinks
    here. *)
Definition back (hashes : list uint256) : uint256 := last hashes uint256_zero.
Definition push_back (hashes : list uint256) (x : uint256) : list uint256 :=
  hashes ++ [x].
Definition resize (hashes : list uint256) (n : nat) : list uint256 :=
  firstn n hashes ++ repeat uint256_zero (n - length hashes).

(** Lines 53-57: one pass of the [while] body after the mutation scan. *)
Definition next_level (hashes : list uint256) : list uint256 :=
  let hashes1 :=
    if Nat.odd (length hashes) then push_back hashes (back hashes) else hashes in
  let hashes2 := SHA256D64 hashes1 (length hashes1 / 2) in
  resize hashes2 (length hashes2 / 2).

(** [check] is [mutated != nullptr]. *)
Fixpoint ComputeMerkleRoot_loop (fuel : nat) (check : bool)
    (hashes : list uint256) (mutation : bool) : result (list uint256 * bool) :=
  if (1 <? length hashes)%nat then
    match fuel with
    | O => Fault FuelExhausted
    | S fuel' =>
        let mutation1 := if check then scan_pairs hashes mutation else mutation in
        ComputeMerkleRoot_loop fuel' check (next_level hashes) mutation1
    end
  else Ok (hashes, mutation).

(** [mutated] tells whether the out-pointer is non-null; the second
    component of the result is what has been stored through it ([None] when
    nothing is stored). *)
Definition ComputeMerkleRoot (hashes : list uint256) (mutated : bool)
    : result (uint256 * option bool) :=
  '(hashes', mutation) <- ComputeMerkleRoot_loop (length hashes) mutated hashes false ;;
  let stored := if mutated then Some mutation else None in
  match hashes' with
  | [] => Ok (uint256_zero, stored)
  | h :: _ => Ok (h, stored)
  end.

(** ** Positional node hash (merkle.cpp, lines 93-114) *)

(** The recursion is on [height], which only ever decreases to 0. *)
Fixpoint CalcHash_rec (height : nat) (pos : Z) (hashs : list uint256)
    : result uint256 :=
  let leaves := size hashs in
  if leaves =? 0 then Fault AssertionFailed
  else
    match height with
    | O =>
        match nth_error hashs (Z.to_nat pos) with
        | Some h => Ok h
        | None => Fault OutOfRange
        end
    | S height' =>
        left <- CalcHash_rec height' (wrap64 (pos * 2)) hashs ;;
        width <- CalcTreeWidth (Z.of_nat height') leaves ;;
        right <- (if wrap64 (wrap64 (pos * 2) + 1) <? width
                  then CalcHash_rec height' (wrap64 (wrap64 (pos * 2) + 1)) hashs
                  else Ok left) ;;
        Ok (Hash left right)
    end.

Definition CalcHash (height pos : Z) (hashs : list uint256) : result uint256 :=
  CalcHash_rec (Z.to_nat height) pos hashs.

(** ** Locating the first differing leaf (merkle.cpp, lines 116-139) *)

(** The loop [while (--height) { ... }] of lines 128-134.  [n] is the value
    of [height] right after the decrement: the loop stops when it is 0 and
    otherwise runs its body at that height. *)
Fixpoint findDiffLeaf_loop (n : nat) (index : Z) (hashs1 hashs2 : list uint256)
    : result Z :=
  match n with
  | O => Ok index
  | S n' =>
      let height := Z.of_nat n in
      h1 <- CalcHash height index hashs1 ;;
      h2 <- CalcHash height index hashs2 ;;
      let index1 :=
        if negb (uint256_eqb h1 h2) then wrap64 (index * 2)
        else wrap64 (wrap64 (index * 2) + 2) in
      findDiffLeaf_loop n' index1 hashs1 hashs2
  end.

Definition findDiffLeaf (hashs1 hashs2 : list uint256) : result Z :=
  let index := 0 in
  '(root1, _) <- ComputeMerkleRoot hashs1 true ;;
  '(root2, _) <- ComputeMerkleRoot hashs2 true ;;
  if uint256_eqb root1 root2 then Ok index
  else
    height <- CalcTreeHeight hashs1 ;;
    height2 <- CalcTreeHeight hashs2 ;;
    if negb (height =? height2) then Fault AssertionFailed
    else
      index1 <- findDiffLeaf_loop (Z.to_nat (wrap64 (height - 1))) index hashs1 hashs2 ;;
      (* the loop has left height == 0 *)
      h1 <- CalcHash 0 index1 hashs1 ;;
      h2 <- CalcHash 0 index1 hashs2 ;;
      if uint256_eqb h1 h2 then Ok (wrap64 (index1 + 1)) else Ok index1.

(** ** Levels of the tree and the pairs that get hashed *)

(** [level h hashes]: the working vector of [ComputeMerkleRoot] after [h]
    passes of its loop body. *)
Definition level (h : nat) (hashes : list uint256) : list uint256 :=
  Nat.iter h next_level hashes.

(** The adjacent pairs one pass feeds to the hash, the last element paired
    with itself when the level is odd. *)
Fixpoint pairs_of (hashes : list uint256) : list (uint256 * uint256) :=
  match hashes with
  | a :: b :: rest => (a, b) :: pairs_of rest
  | [a] => [(a, a)]
  | [] => []
  end.

Definition hash_pair (p : uint256 * uint256) : uint256 := sha256d (fst p) (snd p).

(** All pairs hashed while [ComputeMerkleRoot] folds [hashes]. *)
Fixpoint hashed_pairs (fuel : nat) (hashes : list uint256)
    : list (uint256 * uint256) :=
  if (1 <? length hashes)%nat then
    match fuel with
    | O => []
    | S fuel' => pairs_of hashes ++ hashed_pairs fuel' (next_level hashes)
    end
  else [].

Definition tree_pairs (hashes : list uint256) : list (uint256 * uint256) :=
  hashed_pairs (length hashes) hashes.

(** "Assuming no double-SHA256 collisions" (merkle.cpp, line 40), restricted
    to the inputs a computation really hashes: distinct pairs of [pairs] have
    distinct hashes. *)
Definition collision_free (pairs : list (uint256 * uint256)) : Prop :=
  forall p q, In p pairs -> In q pairs -> hash_pair p = hash_pair q -> p = q.

Definition pair_eqb (p q : uint256 * uint256) : bool :=
  uint256_eqb (fst p) (fst q) && uint256_eqb (snd p) (snd q).

Definition collision_freeb (pairs : list (uint256 * uint256)) : bool :=
  forallb (fun p =>
    forallb (fun q =>
      implb (uint256_eqb (hash_pair p) (hash_pair q)) (pair_eqb p q)) pairs) pairs.

(** The root alone, as [findDiffLeaf] compares it. *)
Definition merkle_root (hashes : list uint256) : result uint256 :=
  '(root, _) <- ComputeMerkleRoot hashes true ;; Ok root.



(** * Properties *)

(** ** Machine arithmetic *)

Lemma two_64 : 2 ^ 64 = 18446744073709551616.
Proof. reflexivity. Qed.

Lemma two_63 : 2 ^ 63 = 9223372036854775808.
Proof. reflexivity. Qed.

Ltac lia64 := rewrite ?two_64, ?two_63 in *; lia.

Lemma wrap64_small (x : Z) : 0 <= x < 2 ^ 64 -> wrap64 x = x.
Proof. intros H. unfold wrap64. apply Z.mod_small. exact H. Qed.

Lemma pow2_pos (h : Z) : 0 <= h -> 0 < 2 ^ h.
Proof. intros H. apply Z.pow_pos_nonneg; lia. Qed.

Lemma pow2_le_63 (h : Z) : 0 <= h <= 63 -> 2 ^ h <= 2 ^ 63.
Proof. intros H. apply Z.pow_le_mono_r; lia. Qed.

(** Without overflow [CalcTreeWidth] is the rounded-up quotient. *)
Lemma CalcTreeWidth_ceil (height leaves : Z) :
  0 <= height <= 63 -> 0 <= leaves <= max_leaves ->
  CalcTreeWidth height leaves = Ok ((leaves + 2 ^ height - 1) / 2 ^ height).
Proof.
  intros Hh Hn. unfold CalcTreeWidth, max_leaves in *.
  destruct (64 <=? height) eqn:E; [apply Z.leb_le in E; lia|].
  pose proof (pow2_pos height ltac:(lia)) as Hp.
  pose proof (pow2_le_63 height Hh) as Hq.
  assert (H63 : 2 ^ 63 + 2 ^ 63 = 2 ^ 64) by reflexivity.
  assert (H0 : 0 < 2 ^ 63) by reflexivity.
  rewrite Z.shiftl_1_l.
  rewrite (wrap64_small (2 ^ height)) by lia.
  replace (wrap64 (wrap64 (leaves + 2 ^ height) - 1))
    with (wrap64 (leaves + 2 ^ height - 1))
    by (unfold wrap64; now rewrite Zminus_mod_idemp_l).
  rewrite wrap64_small by lia.
  rewrite Z.shiftr_div_pow2 by lia.
  reflexivity.
Qed.

Lemma ceil_half (n p : Z) :
  0 < p -> 0 <= n ->
  (n + 2 * p - 1) / (2 * p) = ((n + p - 1) / p + 1) / 2.
Proof.
  intros Hp Hn.
  replace (2 * p) with (p * 2) by lia.
  rewrite <- Z.div_div by lia.
  replace (n + p * 2 - 1) with (n + p - 1 + 1 * p) by lia.
  rewrite Z.div_add by lia. reflexivity.
Qed.

(** One pass of the loop of [CalcTreeHeight] halves, rounding up. *)
Lemma CalcTreeHeight_halve (leaves : Z) :
  0 <= leaves < 2 ^ 64 - 1 ->
  Z.shiftr (if negb (Z.land leaves 1 =? 0) then wrap64 (leaves + 1) else leaves) 1
  = (leaves + 1) / 2.
Proof.
  intros H.
  change 1 with (Z.ones 1) at 1. rewrite Z.land_ones by lia.
  change (2 ^ 1) with 2.
  rewrite wrap64_small by lia.
  destruct (leaves mod 2 =? 0) eqn:E; simpl negb; cbv iota;
    rewrite Z.shiftr_div_pow2 by lia; change (2 ^ 1) with 2.
  - apply Z.eqb_eq in E.
    pose proof (Z.div_mod leaves 2 ltac:(lia)).
    pose proof (Z.div_mod (leaves + 1) 2 ltac:(lia)).
    pose proof (Z.mod_pos_bound (leaves + 1) 2 ltac:(lia)). lia.
  - reflexivity.
Qed.

(** ** Number of folding rounds *)

Lemma half_up_lt (len : nat) : (1 < len)%nat -> ((len + 1) / 2 < len)%nat.
Proof.
  intros H. apply Nat.Div0.div_lt_upper_bound. lia.
Qed.

Lemma folds_in_total (len : nat) : exists k, folds_in len k.
Proof.
  induction len as [len IH] using (well_founded_induction Nat.lt_wf_0).
  destruct (Nat.le_gt_cases len 1) as [Hle | Hgt].
  - exists O. now constructor.
  - destruct (IH ((len + 1) / 2)%nat (half_up_lt len Hgt)) as [k Hk].
    exists (S k). now constructor.
Qed.

Lemma folds_in_fun (len k1 k2 : nat) :
  folds_in len k1 -> folds_in len k2 -> k1 = k2.
Proof.
  intros H1. revert k2.
  induction H1 as [len Hle | len k Hgt _ IH]; intros k2 H2; inversion H2; subst;
    try lia.
  f_equal. now apply IH.
Qed.

Lemma half_up_le_pow (len j : nat) :
  (len <= 2 ^ S j)%nat -> ((len + 1) / 2 <= 2 ^ j)%nat.
Proof.
  intros H. rewrite Nat.pow_succ_r' in H.
  pose proof (Nat.div_mod_eq (len + 1) 2) as E.
  pose proof (Nat.mod_upper_bound (len + 1) 2 ltac:(lia)). lia.
Qed.

(** [2^j] nodes take at most [j] rounds ... *)
Lemma folds_in_bound (len k : nat) :
  folds_in len k -> forall j, (len <= 2 ^ j)%nat -> (k <= j)%nat.
Proof.
  induction 1 as [len Hle | len k Hgt _ IH]; intros j Hj; [lia|].
  destruct j as [|j]; [simpl in Hj; lia|].
  apply le_n_S, IH, half_up_le_pow, Hj.
Qed.

(** ... and [k] rounds are enough for at most [2^k] nodes only. *)
Lemma folds_in_upper (len k : nat) : folds_in len k -> (len <= 2 ^ k)%nat.
Proof.
  induction 1 as [len Hle | len k Hgt _ IH]; [simpl; lia|].
  rewrite Nat.pow_succ_r'.
  pose proof (Nat.div_mod_eq (len + 1) 2) as E.
  pose proof (Nat.mod_upper_bound (len + 1) 2 ltac:(lia)). lia.
Qed.

Lemma folds_in_lt (len k : nat) : folds_in len k -> (k <= len)%nat.
Proof.
  induction 1 as [len Hle | len k Hgt _ IH]; [lia|].
  pose proof (half_up_lt len Hgt). lia.
Qed.

Lemma folds_in_le_63 (len k : nat) :
  folds_in len k -> Z.of_nat len <= max_leaves -> (k <= 63)%nat.
Proof.
  intros H Hn. apply (folds_in_bound len k H).
  apply Nat2Z.inj_le. rewrite Nat2Z.inj_pow. exact Hn.
Qed.

(** [CalcTreeHeight] counts the rounds. *)
Lemma CalcTreeHeight_loop_folds (len k : nat) :
  folds_in len k ->
  forall (fuel : nat) (height : Z),
    (k <= fuel)%nat -> Z.of_nat len < 2 ^ 64 - 1 ->
    0 <= height -> height + Z.of_nat k < 2 ^ 64 ->
    CalcTreeHeight_loop fuel (Z.of_nat len) height = Ok (height + Z.of_nat k).
Proof.
  induction 1 as [len Hle | len k Hgt _ IH]; intros fuel height Hf Hn Hh Hk.
  - destruct fuel; simpl;
      (destruct (1 <? Z.of_nat len) eqn:E; [apply Z.ltb_lt in E; lia|]);
      f_equal; lia.
  - destruct fuel as [|fuel]; [lia|]. simpl CalcTreeHeight_loop.
    destruct (1 <? Z.of_nat len) eqn:E; [|apply Z.ltb_ge in E; lia].
    rewrite CalcTreeHeight_halve by lia.
    rewrite wrap64_small by lia.
    replace ((Z.of_nat len + 1) / 2) with (Z.of_nat ((len + 1) / 2)).
    + rewrite IH; [f_equal; lia | lia | | lia | lia].
      pose proof (half_up_lt len Hgt). lia.
    + rewrite Nat2Z.inj_div, Nat2Z.inj_add. reflexivity.
Qed.

Lemma CalcTreeHeight_folds (hashes : list uint256) (k : nat) :
  folds_in (length hashes) k -> size hashes <= max_leaves ->
  CalcTreeHeight hashes = Ok (Z.of_nat k).
Proof.
  intros H Hn. unfold CalcTreeHeight, size in *.
  pose proof (folds_in_le_63 _ _ H Hn) as Hk.
  unfold max_leaves in Hn.
  assert (2 ^ 63 < 2 ^ 64 - 1) by reflexivity.
  rewrite (CalcTreeHeight_loop_folds _ _ H) by lia.
  reflexivity.
Qed.

(** C7. Height/width consistency: the level at the height of a non-empty
    tree has exactly one node, and level 0 has as many nodes as there are
    leaves. *)
Theorem CalcTreeWidth_at_height_and_zero :
  (forall hashes : list uint256,
      1 <= size hashes <= max_leaves ->
      (height <- CalcTreeHeight hashes ;; CalcTreeWidth height (size hashes)) = Ok 1)
  /\ (forall leaves : Z, 0 <= leaves < 2 ^ 64 -> CalcTreeWidth 0 leaves = Ok leaves).
Proof.
  split.
  - intros hashes Hn.
    destruct (folds_in_total (length hashes)) as [k Hk].
    rewrite (CalcTreeHeight_folds hashes k Hk) by lia. simpl bind.
    pose proof (folds_in_le_63 _ _ Hk (proj2 Hn)) as Hk63.
    rewrite CalcTreeWidth_ceil by lia.
    f_equal.
    pose proof (folds_in_upper _ _ Hk) as Hup.
    apply Nat2Z.inj_le in Hup. rewrite Nat2Z.inj_pow in Hup.
    change (Z.of_nat 2) with 2 in Hup. fold (size hashes) in Hup.
    pose proof (pow2_pos (Z.of_nat k) ltac:(lia)) as Hp.
    symmetry.
    apply (Z.div_unique _ _ 1 (size hashes - 1)); lia.
  - intros leaves Hn. unfold CalcTreeWidth. change (64 <=? 0) with false.
    cbv iota. f_equal. rewrite Z.shiftr_0_r. change (Z.shiftl 1 0) with 1.
    rewrite (wrap64_small 1) by lia64.
    replace (wrap64 (wrap64 (leaves + 1) - 1)) with (wrap64 (leaves + 1 - 1))
      by (unfold wrap64; now rewrite Zminus_mod_idemp_l).
    rewrite wrap64_small by lia64. lia.
Qed.

(** ** One pass of the fold *)

Lemma list_pair_ind (P : list uint256 -> Prop) :
  P [] -> (forall a, P [a]) -> (forall a b l, P l -> P (a :: b :: l)) ->
  forall l, P l.
Proof.
  intros H0 H1 H2 l.
  enough (H : P l /\ forall a, P (a :: l)) by apply H.
  induction l as [|x l [IH1 IH2]]; split; auto.
Qed.

Lemma length_pairs_of (l : list uint256) :
  length (pairs_of l) = ((length l + 1) / 2)%nat.
Proof.
  induction l as [| a | a b l IH] using list_pair_ind; try reflexivity.
  cbn [pairs_of length]. rewrite IH.
  pose proof (Nat.div_mod_eq (length l + 1) 2).
  pose proof (Nat.mod_upper_bound (length l + 1) 2 ltac:(lia)).
  pose proof (Nat.div_mod_eq (S (S (length l)) + 1) 2).
  pose proof (Nat.mod_upper_bound (S (S (length l)) + 1) 2 ltac:(lia)).
  lia.
Qed.

Lemma half_succ_succ (n : nat) : (S (S n) / 2 = S (n / 2))%nat.
Proof.
  pose proof (Nat.div_mod_eq n 2).
  pose proof (Nat.mod_upper_bound n 2 ltac:(lia)).
  pose proof (Nat.div_mod_eq (S (S n)) 2).
  pose proof (Nat.mod_upper_bound (S (S n)) 2 ltac:(lia)).
  lia.
Qed.

Lemma sha256d64_blocks_even (l : list uint256) :
  Nat.odd (length l) = false ->
  sha256d64_blocks l (length l / 2) = map hash_pair (pairs_of l).
Proof.
  induction l as [| a | a b l IH] using list_pair_ind; intros Hodd.
  - reflexivity.
  - discriminate.
  - cbn [length]. rewrite half_succ_succ. cbn [sha256d64_blocks pairs_of map].
    f_equal. apply IH. exact Hodd.
Qed.

Lemma pairs_of_padded (l : list uint256) :
  Nat.odd (length l) = true -> pairs_of (push_back l (back l)) = pairs_of l.
Proof.
  unfold push_back, back.
  induction l as [| a | a b l IH] using list_pair_ind; intros Hodd.
  - discriminate.
  - reflexivity.
  - destruct l as [|c l]; [discriminate|].
    change (last (a :: b :: c :: l) uint256_zero) with (last (c :: l) uint256_zero).
    cbn [app pairs_of]. f_equal. apply IH. exact Hodd.
Qed.

Lemma length_padded (l : list uint256) :
  Nat.odd (length l) = true ->
  Nat.odd (length (push_back l (back l))) = false.
Proof.
  intros H. unfold push_back. rewrite length_app. cbn [length].
  rewrite Nat.add_1_r, Nat.odd_succ, <- Nat.negb_odd, H. reflexivity.
Qed.

Lemma even_length_pairs (l : list uint256) :
  Nat.odd (length l) = false -> (length l = 2 * length (pairs_of l))%nat.
Proof.
  induction l as [| a | a b l IH] using list_pair_ind; intros Hodd.
  - reflexivity.
  - discriminate.
  - cbn [length pairs_of]. rewrite (IH Hodd) at 1. lia.
Qed.

(** In place hashing, then truncation: what is left is the list of the
    hashes of the adjacent pairs. *)
Lemma SHA256D64_resize (l : list uint256) :
  Nat.odd (length l) = false ->
  let hashes2 := SHA256D64 l (length l / 2) in
  resize hashes2 (length hashes2 / 2) = map hash_pair (pairs_of l).
Proof.
  intros Hodd. cbv zeta. unfold SHA256D64.
  rewrite (sha256d64_blocks_even l Hodd).
  pose proof (even_length_pairs l Hodd) as Hlen.
  set (out := map hash_pair (pairs_of l)).
  assert (Hout : length out = length (pairs_of l)) by apply length_map.
  assert (Hall : length (out ++ skipn (length out) l) = length l).
  { rewrite length_app, length_skipn. lia. }
  rewrite Hall. unfold resize. rewrite Hall.
  replace (length l / 2)%nat with (length out).
  - rewrite firstn_app, firstn_all, Nat.sub_diag, firstn_O, app_nil_r.
    replace (length out - length l)%nat with O by lia.
    cbn [repeat]. apply app_nil_r.
  - rewrite Hout, Hlen, Nat.mul_comm, Nat.div_mul; lia.
Qed.

Lemma next_level_pairs (l : list uint256) :
  next_level l = map hash_pair (pairs_of l).
Proof.
  unfold next_level.
  destruct (Nat.odd (length l)) eqn:Hodd.
  - rewrite (SHA256D64_resize _ (length_padded l Hodd)).
    now rewrite pairs_of_padded.
  - apply (SHA256D64_resize _ Hodd).
Qed.

Lemma length_next_level (l : list uint256) :
  length (next_level l) = ((length l + 1) / 2)%nat.
Proof. now rewrite next_level_pairs, length_map, length_pairs_of. Qed.

(** Node [i] of the next level combines nodes [2i] and [2i+1], or node [2i]
    with itself when it has no right sibling. *)
Lemma nth_error_pairs_of (l : list uint256) (i : nat) :
  nth_error (pairs_of l) i =
  match nth_error l (2 * i) with
  | None => None
  | Some a =>
      Some (a, match nth_error l (2 * i + 1) with Some b => b | None => a end)
  end.
Proof.
  revert i.
  induction l as [| a | a b l IH] using list_pair_ind; intros i.
  - now destruct i.
  - destruct i as [|i]; [reflexivity|].
    replace (2 * S i)%nat with (S (S (2 * i))) by lia.
    cbn [pairs_of nth_error]. now destruct i.
  - destruct i as [|i]; [reflexivity|].
    replace (2 * S i)%nat with (S (S (2 * i))) by lia.
    cbn [pairs_of nth_error plus]. apply IH.
Qed.

Lemma nth_error_next_level (l : list uint256) (i : nat) :
  nth_error (next_level l) i =
  match nth_error l (2 * i) with
  | None => None
  | Some a =>
      Some (Hash a (match nth_error l (2 * i + 1) with Some b => b | None => a end))
  end.
Proof.
  rewrite next_level_pairs, nth_error_map, nth_error_pairs_of.
  now destruct (nth_error l (2 * i)).
Qed.

(** ** Levels *)

Lemma level_zero (l : list uint256) : level 0 l = l.
Proof. reflexivity. Qed.

Lemma level_succ (h : nat) (l : list uint256) :
  level (S h) l = next_level (level h l).
Proof. reflexivity. Qed.

Lemma level_succ_r (h : nat) (l : list uint256) :
  level (S h) l = level h (next_level l).
Proof. apply Nat.iter_succ_r. Qed.

Lemma half_up_le (n : nat) : ((n + 1) / 2 <= n)%nat.
Proof.
  pose proof (Nat.div_mod_eq (n + 1) 2).
  pose proof (Nat.mod_upper_bound (n + 1) 2 ltac:(lia)).
  destruct n as [|n]; [reflexivity | lia].
Qed.

Lemma half_up_pos (n : nat) : (0 < n)%nat -> (0 < (n + 1) / 2)%nat.
Proof.
  intros H. pose proof (Nat.div_mod_eq (n + 1) 2).
  pose proof (Nat.mod_upper_bound (n + 1) 2 ltac:(lia)). lia.
Qed.

Lemma length_level_le (h : nat) (l : list uint256) :
  (length (level h l) <= length l)%nat.
Proof.
  induction h as [|h IH]; [reflexivity|].
  rewrite level_succ, length_next_level.
  pose proof (half_up_le (length (level h l))). lia.
Qed.

Lemma length_level_pos (h : nat) (l : list uint256) :
  l <> [] -> (0 < length (level h l))%nat.
Proof.
  intros Hl. induction h as [|h IH].
  - destruct l; [contradiction | cbn; lia].
  - rewrite level_succ, length_next_level.
    now apply half_up_pos.
Qed.

(** The levels have the widths that [CalcTreeWidth] computes. *)
Lemma length_level (h : nat) (l : list uint256) :
  Z.of_nat (length (level h l))
  = (size l + 2 ^ Z.of_nat h - 1) / 2 ^ Z.of_nat h.
Proof.
  induction h as [|h IH].
  - rewrite level_zero. change (2 ^ Z.of_nat 0) with 1.
    rewrite Z.div_1_r. unfold size. lia.
  - rewrite level_succ, length_next_level.
    rewrite Nat2Z.inj_div, Nat2Z.inj_add, IH.
    rewrite (Nat2Z.inj_succ h), Z.pow_succ_r by lia.
    change (Z.of_nat 1) with 1. change (Z.of_nat 2) with 2.
    symmetry. apply ceil_half; [apply pow2_pos | unfold size]; lia.
Qed.

Lemma CalcTreeWidth_level (h : nat) (l : list uint256) :
  (h <= 63)%nat -> size l <= max_leaves ->
  CalcTreeWidth (Z.of_nat h) (size l) = Ok (Z.of_nat (length (level h l))).
Proof.
  intros Hh Hn. rewrite length_level.
  apply CalcTreeWidth_ceil; unfold size in *; lia.
Qed.

Lemma folds_in_level (l : list uint256) (k : nat) :
  folds_in (length l) k -> (length (level k l) <= 1)%nat.
Proof.
  intros H. remember (length l) as len eqn:E. revert l E.
  induction H as [len Hle | len k Hgt _ IH]; intros l E; subst len.
  - exact Hle.
  - rewrite level_succ_r. apply IH. now rewrite length_next_level.
Qed.

(** ** The loop of [ComputeMerkleRoot] *)

Lemma ComputeMerkleRoot_loop_levels (l : list uint256) (k : nat) :
  folds_in (length l) k ->
  forall (fuel : nat) (check mutation : bool),
    (k <= fuel)%nat ->
    exists mutation',
      ComputeMerkleRoot_loop fuel check l mutation = Ok (level k l, mutation').
Proof.
  intros H. remember (length l) as len eqn:E. revert l E.
  induction H as [len Hle | len k Hgt _ IH]; intros l E fuel check mutation Hf;
    subst len.
  - exists mutation.
    destruct fuel; cbn [ComputeMerkleRoot_loop];
      (destruct (1 <? length l)%nat eqn:T; [apply Nat.ltb_lt in T; lia|]);
      reflexivity.
  - destruct fuel as [|fuel]; [lia|]. cbn [ComputeMerkleRoot_loop].
    destruct (1 <? length l)%nat eqn:T; [|apply Nat.ltb_ge in T; lia].
    rewrite level_succ_r. apply IH; [now rewrite length_next_level | lia].
Qed.

(** [ComputeMerkleRoot] always returns, and its root is the head of the top
    level. *)
Lemma ComputeMerkleRoot_total (l : list uint256) (mutated : bool) (k : nat) :
  folds_in (length l) k ->
  exists flag,
    ComputeMerkleRoot l mutated = Ok (hd uint256_zero (level k l), flag).
Proof.
  intros H. unfold ComputeMerkleRoot.
  destruct (ComputeMerkleRoot_loop_levels l k H (length l) mutated false
              (folds_in_lt _ _ H)) as [m' E].
  rewrite E. cbn [bind].
  destruct (level k l); eexists; reflexivity.
Qed.

(** ** The positional hasher computes the nodes of the levels *)

Lemma CalcHash_rec_unfold (height : nat) (pos : Z) (hashs : list uint256) :
  CalcHash_rec (S height) pos hashs =
  if size hashs =? 0 then Fault AssertionFailed
  else
    left <- CalcHash_rec height (wrap64 (pos * 2)) hashs ;;
    width <- CalcTreeWidth (Z.of_nat height) (size hashs) ;;
    right <- (if wrap64 (wrap64 (pos * 2) + 1) <? width
              then CalcHash_rec height (wrap64 (wrap64 (pos * 2) + 1)) hashs
              else Ok left) ;;
    Ok (Hash left right).
Proof. reflexivity. Qed.

Lemma size_nonempty (l : list uint256) : l <> [] -> (size l =? 0) = false.
Proof.
  intros H. apply Z.eqb_neq. unfold size.
  destruct l; [contradiction | cbn [length]; lia].
Qed.

Lemma CalcHash_rec_level (hashs : list uint256) :
  hashs <> [] -> size hashs <= max_leaves ->
  forall (h i : nat) (x : uint256),
    (h <= 64)%nat ->
    nth_error (level h hashs) i = Some x ->
    CalcHash_rec h (Z.of_nat i) hashs = Ok x.
Proof.
  intros Hne Hn h.
  induction h as [|h IH]; intros i x Hh Hx.
  - cbn [CalcHash_rec]. rewrite (size_nonempty _ Hne).
    rewrite Nat2Z.id. rewrite level_zero in Hx. now rewrite Hx.
  - rewrite CalcHash_rec_unfold, (size_nonempty _ Hne).
    rewrite level_succ, nth_error_next_level in Hx.
    destruct (nth_error (level h hashs) (2 * i)) as [a|] eqn:Ea; [|discriminate].
    assert (Hlt : (2 * i < length (level h hashs))%nat).
    { apply nth_error_Some. now rewrite Ea. }
    pose proof (length_level_le h hashs) as Hle.
    unfold size, max_leaves in Hn.
    rewrite (wrap64_small (Z.of_nat i * 2)) by lia64.
    rewrite (wrap64_small (Z.of_nat i * 2 + 1)) by lia64.
    replace (Z.of_nat i * 2) with (Z.of_nat (2 * i)) by lia.
    rewrite (IH (2 * i)%nat a) by (lia || assumption). cbn [bind].
    rewrite CalcTreeWidth_level by (unfold size, max_leaves; lia). cbn [bind].
    replace (Z.of_nat (2 * i) + 1) with (Z.of_nat (2 * i + 1)) by lia.
    destruct (nth_error (level h hashs) (2 * i + 1)) as [b|] eqn:Eb.
    + assert (Hlt' : (2 * i + 1 < length (level h hashs))%nat).
      { apply nth_error_Some. now rewrite Eb. }
      destruct (Z.of_nat (2 * i + 1) <? Z.of_nat (length (level h hashs))) eqn:T;
        [|apply Z.ltb_ge in T; lia].
      rewrite (IH (2 * i + 1)%nat b) by (lia || assumption). cbn [bind].
      now inversion Hx.
    + apply nth_error_None in Eb.
      destruct (Z.of_nat (2 * i + 1) <? Z.of_nat (length (level h hashs))) eqn:T;
        [apply Z.ltb_lt in T; lia|].
      cbn [bind]. now inversion Hx.
Qed.

(** C1. Root agreement: on a non-empty vector, the positional hasher asked
    for node 0 at the height of the tree returns the root that
    [ComputeMerkleRoot] computes by folding. *)
Theorem CalcHash_top_is_merkle_root (hashes : list uint256) (mutated : bool) :
  hashes <> [] -> size hashes <= max_leaves ->
  exists root flag,
    ComputeMerkleRoot hashes mutated = Ok (root, flag)
    /\ (height <- CalcTreeHeight hashes ;; CalcHash height 0 hashes) = Ok root.
Proof.
  intros Hne Hn.
  destruct (folds_in_total (length hashes)) as [k Hk].
  destruct (ComputeMerkleRoot_total hashes mutated k Hk) as [flag Hroot].
  exists (hd uint256_zero (level k hashes)), flag. split; [exact Hroot|].
  rewrite (CalcTreeHeight_folds hashes k Hk Hn). cbn [bind].
  unfold CalcHash. rewrite Nat2Z.id.
  pose proof (folds_in_le_63 _ _ Hk Hn) as Hk63.
  apply (CalcHash_rec_level hashes Hne Hn k 0); [lia|].
  pose proof (length_level_pos k hashes Hne) as Hpos.
  destruct (level k hashes); [cbn in Hpos; lia | reflexivity].
Qed.

(** C10. In-bounds safety of the positional hasher: at every position of
    the tree of a non-empty vector it returns a hash.  An access outside the
    vector would have made the call stop with [OutOfRange], a failed
    assertion with [AssertionFailed], an oversized shift with
    [ShiftOverflow]. *)
Theorem CalcHash_in_bounds (hashes : list uint256) (height h i width : Z) :
  hashes <> [] -> size hashes <= max_leaves ->
  CalcTreeHeight hashes = Ok height -> 0 <= h <= height ->
  CalcTreeWidth h (size hashes) = Ok width -> 0 <= i < width ->
  exists x, CalcHash h i hashes = Ok x.
Proof.
  intros Hne Hn Hheight Hh Hwidth Hi.
  destruct (folds_in_total (length hashes)) as [k Hk].
  rewrite (CalcTreeHeight_folds hashes k Hk Hn) in Hheight.
  injection Hheight as <-.
  pose proof (folds_in_le_63 _ _ Hk Hn) as Hk63.
  rewrite <- (Z2Nat.id h) in Hwidth by lia.
  rewrite CalcTreeWidth_level in Hwidth by lia.
  injection Hwidth as <-.
  destruct (nth_error (level (Z.to_nat h) hashes) (Z.to_nat i)) as [x|] eqn:E.
  - exists x. unfold CalcHash. rewrite <- (Z2Nat.id i) by lia.
    apply (CalcHash_rec_level hashes Hne Hn); [lia | exact E].
  - apply nth_error_None in E. lia.
Qed.

(** C9. The assertion of [CalcHash] fails on the empty vector, whatever the
    position asked for, and on no other vector. *)
Theorem CalcHash_assertion :
  (forall height pos : Z, CalcHash height pos [] = Fault AssertionFailed)
  /\ (forall (hashs : list uint256) (height pos : Z),
         hashs <> [] -> CalcHash height pos hashs <> Fault AssertionFailed).
Proof.
  split.
  - intros height pos. unfold CalcHash. now destruct (Z.to_nat height).
  - intros hashs height pos Hne. unfold CalcHash.
    generalize (Z.to_nat height) as h. clear height. intros h. revert pos.
    induction h as [|h IH]; intros pos.
    + cbn [CalcHash_rec]. rewrite (size_nonempty _ Hne).
      now destruct (nth_error hashs (Z.to_nat pos)).
    + rewrite CalcHash_rec_unfold, (size_nonempty _ Hne).
      pose proof (IH (wrap64 (pos * 2))) as IHl.
      pose proof (IH (wrap64 (wrap64 (pos * 2) + 1))) as IHr.
      destruct (CalcHash_rec h (wrap64 (pos * 2)) hashs) as [lhs|f]; cbn [bind];
        [|congruence].
      unfold CalcTreeWidth.
      destruct (64 <=? Z.of_nat h); cbn [bind]; [discriminate|].
      match goal with |- context [if ?c then _ else _] => destruct c end;
        cbn [bind]; [|discriminate].
      destruct (CalcHash_rec h (wrap64 (wrap64 (pos * 2) + 1)) hashs);
        cbn [bind]; [discriminate | congruence].
Qed.

(** C8. The root of the empty vector is the zero hash, without any fault;
    the flag stored through a non-null [mutated] is [false]. *)
Theorem ComputeMerkleRoot_empty :
  ComputeMerkleRoot [] true = Ok (uint256_zero, Some false)
  /\ ComputeMerkleRoot [] false = Ok (uint256_zero, None).
Proof. split; reflexivity. Qed.

(** ** [findDiffLeaf]: the two exits before the descent *)

Lemma merkle_root_total (l : list uint256) :
  exists root flag,
    ComputeMerkleRoot l true = Ok (root, flag) /\ merkle_root l = Ok root.
Proof.
  destruct (folds_in_total (length l)) as [k Hk].
  destruct (ComputeMerkleRoot_total l true k Hk) as [flag E].
  exists (hd uint256_zero (level k l)), flag. split; [exact E|].
  unfold merkle_root. now rewrite E.
Qed.

(** Equal roots: index 0 is returned before the heights are looked at. *)
Lemma findDiffLeaf_equal_roots (hashs1 hashs2 : list uint256) :
  merkle_root hashs1 = merkle_root hashs2 -> findDiffLeaf hashs1 hashs2 = Ok 0.
Proof.
  intros Heq.
  destruct (merkle_root_total hashs1) as (r1 & f1 & E1 & M1).
  destruct (merkle_root_total hashs2) as (r2 & f2 & E2 & M2).
  unfold findDiffLeaf. rewrite E1, E2. cbn [bind].
  assert (r1 = r2) by congruence. subst r2.
  unfold uint256_eqb. now rewrite Z.eqb_refl.
Qed.

(** C4 (as amended). Vectors whose roots differ and whose tree heights
    differ make the assertion of [findDiffLeaf] fail. *)
Theorem findDiffLeaf_height_mismatch (hashs1 hashs2 : list uint256) :
  size hashs1 <= max_leaves -> size hashs2 <= max_leaves ->
  merkle_root hashs1 <> merkle_root hashs2 ->
  CalcTreeHeight hashs1 <> CalcTreeHeight hashs2 ->
  findDiffLeaf hashs1 hashs2 = Fault AssertionFailed.
Proof.
  intros Hn1 Hn2 Hroot Hheight.
  destruct (merkle_root_total hashs1) as (r1 & f1 & E1 & M1).
  destruct (merkle_root_total hashs2) as (r2 & f2 & E2 & M2).
  destruct (folds_in_total (length hashs1)) as [k1 Hk1].
  destruct (folds_in_total (length hashs2)) as [k2 Hk2].
  rewrite (CalcTreeHeight_folds _ _ Hk1 Hn1), (CalcTreeHeight_folds _ _ Hk2 Hn2)
    in Hheight.
  unfold findDiffLeaf. rewrite E1, E2. cbn [bind].
  unfold uint256_eqb.
  destruct (r1 =? r2) eqn:T; [apply Z.eqb_eq in T; congruence|].
  rewrite (CalcTreeHeight_folds _ _ Hk1 Hn1), (CalcTreeHeight_folds _ _ Hk2 Hn2).
  cbn [bind].
  destruct (Z.of_nat k1 =? Z.of_nat k2) eqn:T'; [|reflexivity].
  apply Z.eqb_eq in T'. congruence.
Qed.

(** ** [findDiffLeaf] on two single leaves *)

Lemma CalcHash_rec_single_ok (x : uint256) (h : nat) :
  (h <= 64)%nat -> exists v, CalcHash_rec h 0 [x] = Ok v.
Proof.
  intros Hh.
  assert (Hne : [x] <> []) by discriminate.
  assert (Hn : size [x] <= max_leaves) by (vm_compute; discriminate).
  pose proof (length_level_pos h [x] Hne) as Hpos.
  destruct (nth_error (level h [x]) 0) as [v|] eqn:E.
  - exists v. now apply (CalcHash_rec_level [x] Hne Hn h 0%nat).
  - apply nth_error_None in E. lia.
Qed.

(** From height 65 on, the recursion reaches [CalcTreeWidth(64, 1)], whose
    shifts by 64 bits are undefined. *)
Lemma CalcHash_rec_single_overflow (x : uint256) (d : nat) :
  CalcHash_rec (65 + d) 0 [x] = Fault ShiftOverflow.
Proof.
  assert (Hne : [x] <> []) by discriminate.
  induction d as [|d IH].
  - change (65 + 0)%nat with (S 64).
    rewrite CalcHash_rec_unfold, (size_nonempty _ Hne).
    change (wrap64 (0 * 2)) with 0.
    destruct (CalcHash_rec_single_ok x 64 (le_n 64)) as [v ->].
    reflexivity.
  - replace (65 + S d)%nat with (S (65 + d)) by lia.
    rewrite CalcHash_rec_unfold, (size_nonempty _ Hne).
    change (wrap64 (0 * 2)) with 0.
    rewrite IH. reflexivity.
Qed.

Lemma findDiffLeaf_loop_overflow (x y : uint256) (n : nat) :
  (65 <= n)%nat -> findDiffLeaf_loop n 0 [x] [y] = Fault ShiftOverflow.
Proof.
  intros Hn. destruct n as [|n]; [lia|].
  cbn [findDiffLeaf_loop]. unfold CalcHash. rewrite Nat2Z.id.
  replace (S n) with (65 + (S n - 65))%nat by lia.
  now rewrite CalcHash_rec_single_overflow.
Qed.

Lemma findDiffLeaf_single_leaves (x y : uint256) :
  x <> y -> findDiffLeaf [x] [y] = Fault ShiftOverflow.
Proof.
  intros Hxy. unfold findDiffLeaf.
  change (ComputeMerkleRoot [x] true) with (Ok (x, Some false)).
  change (ComputeMerkleRoot [y] true) with (Ok (y, Some false)).
  cbn [bind]. unfold uint256_eqb.
  destruct (x =? y) eqn:T; [apply Z.eqb_eq in T; contradiction|].
  change (CalcTreeHeight [x]) with (Ok 0).
  change (CalcTreeHeight [y]) with (Ok 0).
  cbn [bind]. change (negb (0 =? 0)) with false. cbv iota.
  change (wrap64 (0 - 1)) with 18446744073709551615.
  rewrite findDiffLeaf_loop_overflow by lia.
  reflexivity.
Qed.

(** C5 (failing input). On the single-leaf vectors [[1]] and [[2]] the
    tree height is 0, [--height] wraps to [2^64 - 1], the descent loop is
    entered at that height, and the call does not return an index. *)
Theorem findDiffLeaf_single_leaves_no_result :
  CalcTreeHeight [1] = Ok 0 /\ CalcTreeHeight [2] = Ok 0
  /\ wrap64 (0 - 1) = 2 ^ 64 - 1
  /\ findDiffLeaf [1] [2] = Fault ShiftOverflow.
Proof.
  split; [reflexivity|]. split; [reflexivity|]. split; [reflexivity|].
  apply findDiffLeaf_single_leaves. discriminate.
Qed.

(** For a tree of height at least 1 the descent loop runs [height - 1]
    times; only the height 0 makes the counter wrap. *)
Lemma findDiffLeaf_descent_rounds (height : Z) :
  1 <= height < 2 ^ 64 ->
  Z.to_nat (wrap64 (height - 1)) = (Z.to_nat height - 1)%nat.
Proof.
  intros H. rewrite wrap64_small by lia. lia.
Qed.

(** ** The mutation flag *)

Lemma uint256_eqb_neq (a b : uint256) : a <> b -> uint256_eqb a b = false.
Proof. intros H. now apply Z.eqb_neq. Qed.

Lemma uint256_eqb_refl (a : uint256) : uint256_eqb a a = true.
Proof. apply Z.eqb_refl. Qed.

Lemma in_pairs_of (l : list uint256) (p : uint256 * uint256) :
  In p (pairs_of l) -> In (fst p) l /\ In (snd p) l.
Proof.
  induction l as [| a | a b l IH] using list_pair_ind; cbn [pairs_of In].
  - contradiction.
  - intros [<- | []]. cbn. auto.
  - intros [<- | H]; cbn; [auto|]. destruct (IH H). auto.
Qed.

Lemma NoDup_pairs_of (l : list uint256) : NoDup l -> NoDup (pairs_of l).
Proof.
  induction l as [| a | a b l IH] using list_pair_ind; intros H; cbn [pairs_of].
  - constructor.
  - constructor; [intros [] | constructor].
  - inversion H as [|? ? Ha Hbl]; subst. inversion Hbl as [|? ? Hb Hl]; subst.
    constructor; [|now apply IH].
    intros Hin. apply in_pairs_of in Hin. cbn in Hin.
    apply Ha. right. apply Hin.
Qed.

(** The scan of lines 49-51 finds nothing in a level without repetition:
    it compares the elements of the level only, before any padding. *)
Lemma scan_pairs_NoDup (l : list uint256) :
  NoDup l -> scan_pairs l false = false.
Proof.
  induction l as [| a | a b l IH] using list_pair_ind; intros H;
    try reflexivity.
  inversion H as [|? ? Ha Hbl]; subst. inversion Hbl as [|? ? Hb Hl]; subst.
  cbn [scan_pairs]. rewrite uint256_eqb_neq; [now apply IH|].
  intros ->. apply Ha. now left.
Qed.

Lemma collision_free_incl (p q : list (uint256 * uint256)) :
  incl p q -> collision_free q -> collision_free p.
Proof. intros Hincl Hq x y Hx Hy. apply Hq; now apply Hincl. Qed.

Lemma NoDup_next_level (l : list uint256) :
  NoDup l -> collision_free (pairs_of l) -> NoDup (next_level l).
Proof.
  intros Hl Hfree. rewrite next_level_pairs.
  apply NoDup_map_NoDup_ForallPairs; [|now apply NoDup_pairs_of].
  intros p q Hp Hq. now apply Hfree.
Qed.

Lemma ComputeMerkleRoot_loop_not_mutated (fuel : nat) :
  forall (l res : list uint256) (flag : bool),
    NoDup l -> collision_free (hashed_pairs fuel l) ->
    ComputeMerkleRoot_loop fuel true l false = Ok (res, flag) ->
    flag = false.
Proof.
  induction fuel as [|fuel IH]; intros l res flag Hl Hfree;
    cbn [ComputeMerkleRoot_loop hashed_pairs] in *;
    destruct (1 <? length l)%nat; try discriminate;
    try (intros [= _ <-]; reflexivity).
  rewrite (scan_pairs_NoDup l Hl).
  apply IH.
  - apply NoDup_next_level; [exact Hl|].
    eapply collision_free_incl; [|exact Hfree]. now apply incl_appl.
  - eapply collision_free_incl; [|exact Hfree]. now apply incl_appr.
Qed.

(** C6.  A vector of pairwise distinct leaves is never reported as mutated,
    odd levels included: the duplicate appended to an odd level is not
    among the pairs the scan compares.  The pairs hashed along the way are
    assumed not to collide. *)
Theorem ComputeMerkleRoot_distinct_not_mutated (hashes : list uint256) :
  NoDup hashes -> collision_free (tree_pairs hashes) ->
  exists root, ComputeMerkleRoot hashes true = Ok (root, Some false).
Proof.
  intros Hl Hfree.
  destruct (folds_in_total (length hashes)) as [k Hk].
  destruct (ComputeMerkleRoot_loop_levels hashes k Hk (length hashes) true false
              (folds_in_lt _ _ Hk)) as [flag E].
  pose proof (ComputeMerkleRoot_loop_not_mutated _ _ _ _ Hl Hfree E) as ->.
  unfold ComputeMerkleRoot. rewrite E. cbn [bind].
  destruct (level k hashes); eexists; reflexivity.
Qed.

(** ** Concrete shapes *)

Arguments uint256_eqb : simpl never.

Ltac to_nat_numerals :=
  repeat match goal with
         | |- context [Pos.to_nat ?p] =>
             let n := eval compute in (Pos.to_nat p) in
             change (Pos.to_nat p) with n
         end.

Ltac run_code := repeat (progress (cbn; to_nat_numerals)); unfold Hash.

Ltac split_NoDup H :=
  repeat (let Hnotin := fresh "Hnotin" in
          apply NoDup_cons_iff in H; destruct H as [Hnotin H];
          cbn [In] in Hnotin).

(** C2. Six pairwise distinct leaves, and the same six followed by a copy
    of the last two, have the same root; the first vector is not reported as
    mutated, the second is.  The pairs hashed for the first vector are
    assumed not to collide. *)
Theorem ComputeMerkleRoot_duplicated_tail (h1 h2 h3 h4 h5 h6 : uint256) :
  NoDup [h1; h2; h3; h4; h5; h6] ->
  collision_free (tree_pairs [h1; h2; h3; h4; h5; h6]) ->
  exists root,
    ComputeMerkleRoot [h1; h2; h3; h4; h5; h6] true = Ok (root, Some false)
    /\ ComputeMerkleRoot [h1; h2; h3; h4; h5; h6; h5; h6] true
       = Ok (root, Some true).
Proof.
  intros Hd Hfree.
  unfold tree_pairs in Hfree. cbn in Hfree.
  split_NoDup Hd.
  assert (H12 : h1 <> h2) by intuition congruence.
  assert (H34 : h3 <> h4) by intuition congruence.
  assert (H56 : h5 <> h6) by intuition congruence.
  assert (HDE : sha256d h1 h2 <> sha256d h3 h4).
  { intros E. apply (Hfree (h1, h2) (h3, h4)) in E; cbn; auto 7.
    injection E as -> _. intuition congruence. }
  assert (HBC : sha256d (sha256d h1 h2) (sha256d h3 h4)
                <> sha256d (sha256d h5 h6) (sha256d h5 h6)).
  { intros E.
    apply (Hfree (sha256d h1 h2, sha256d h3 h4) (sha256d h5 h6, sha256d h5 h6))
      in E; cbn; auto 7.
    injection E as E1 E2. congruence. }
  eexists. split; cbn.
  - rewrite !uint256_eqb_neq by assumption. reflexivity.
  - rewrite uint256_eqb_refl, (uint256_eqb_neq _ _ HBC). reflexivity.
Qed.

(** C3. Two vectors of eight leaves that differ at index 5 and nowhere
    else: [findDiffLeaf] returns 5.  The descent takes the right branch at
    height 2 (index 0 becomes 2), the left branch at height 1 (index 2
    becomes 4), and the leaf test moves on from 4 to 5.  The pairs hashed
    for the two vectors are assumed not to collide. *)
Theorem findDiffLeaf_eight_leaves_index_5 (hashs1 hashs2 : list uint256) :
  length hashs1 = 8%nat -> length hashs2 = 8%nat ->
  (forall i : nat, i <> 5%nat -> nth_error hashs1 i = nth_error hashs2 i) ->
  nth_error hashs1 5 <> nth_error hashs2 5 ->
  collision_free (tree_pairs hashs1 ++ tree_pairs hashs2) ->
  findDiffLeaf hashs1 hashs2 = Ok 5.
Proof.
  intros L1 L2 Hsame Hdiff Hfree.
  destruct hashs1 as [|a0 [|a1 [|a2 [|a3 [|a4 [|a5 [|a6 [|a7 [|]]]]]]]]];
    try discriminate L1.
  destruct hashs2 as [|b0 [|b1 [|b2 [|b3 [|b4 [|b5 [|b6 [|b7 [|]]]]]]]]];
    try discriminate L2.
  pose proof (Hsame 0%nat ltac:(lia)) as E0. pose proof (Hsame 1%nat ltac:(lia)) as E1.
  pose proof (Hsame 2%nat ltac:(lia)) as E2. pose proof (Hsame 3%nat ltac:(lia)) as E3.
  pose proof (Hsame 4%nat ltac:(lia)) as E4. pose proof (Hsame 6%nat ltac:(lia)) as E6.
  pose proof (Hsame 7%nat ltac:(lia)) as E7.
  cbn in E0, E1, E2, E3, E4, E6, E7, Hdiff.
  injection E0 as <-. injection E1 as <-. injection E2 as <-. injection E3 as <-.
  injection E4 as <-. injection E6 as <-. injection E7 as <-.
  assert (H5 : a5 <> b5) by congruence.
  clear Hsame Hdiff L1 L2.
  unfold tree_pairs in Hfree. cbn in Hfree.
  assert (HF : sha256d a4 a5 <> sha256d a4 b5).
  { intros E. apply (Hfree (a4, a5) (a4, b5)) in E; cbn; auto 20.
    congruence. }
  assert (HC : sha256d (sha256d a4 a5) (sha256d a6 a7)
               <> sha256d (sha256d a4 b5) (sha256d a6 a7)).
  { intros E.
    apply (Hfree (sha256d a4 a5, sha256d a6 a7) (sha256d a4 b5, sha256d a6 a7))
      in E; cbn; auto 20.
    congruence. }
  assert (HA : sha256d (sha256d (sha256d a0 a1) (sha256d a2 a3))
                       (sha256d (sha256d a4 a5) (sha256d a6 a7))
               <> sha256d (sha256d (sha256d a0 a1) (sha256d a2 a3))
                          (sha256d (sha256d a4 b5) (sha256d a6 a7))).
  { intros E.
    apply (Hfree (sha256d (sha256d a0 a1) (sha256d a2 a3),
                  sha256d (sha256d a4 a5) (sha256d a6 a7))
                 (sha256d (sha256d a0 a1) (sha256d a2 a3),
                  sha256d (sha256d a4 b5) (sha256d a6 a7)))
      in E; cbn; auto 20.
    congruence. }
  run_code. rewrite (uint256_eqb_neq _ _ HA).
  run_code. rewrite uint256_eqb_refl.
  run_code. rewrite (uint256_eqb_neq _ _ HF).
  run_code. rewrite uint256_eqb_refl.
  reflexivity.
Qed.


(** ** Deciding collision freedom on a given list of pairs *)

Lemma pair_eqb_eq (p q : uint256 * uint256) : pair_eqb p q = true -> p = q.
Proof.
  destruct p as [a b], q as [c d]. unfold pair_eqb, uint256_eqb. cbn [fst snd].
  intros H. apply andb_prop in H as [H1 H2].
  apply Z.eqb_eq in H1, H2. now subst.
Qed.

Lemma collision_freeb_sound (pairs : list (uint256 * uint256)) :
  collision_freeb pairs = true -> collision_free pairs.
Proof.
  unfold collision_freeb. intros H p q Hp Hq E.
  rewrite forallb_forall in H. specialize (H p Hp).
  rewrite forallb_forall in H. specialize (H q Hq).
  rewrite E in H. unfold uint256_eqb at 1 in H. rewrite Z.eqb_refl in H.
  now apply pair_eqb_eq.
Qed.

(** * Further properties of the geometry and of the fold *)

(** ** Geometry *)

(** X1. From one level to the next the width is halved, rounding up. *)
Theorem CalcTreeWidth_halves (height leaves : Z) :
  0 <= height < 63 -> 0 <= leaves <= max_leaves ->
  exists width,
    CalcTreeWidth height leaves = Ok width
    /\ CalcTreeWidth (height + 1) leaves = Ok ((width + 1) / 2).
Proof.
  intros Hh Hn.
  exists ((leaves + 2 ^ height - 1) / 2 ^ height).
  rewrite !CalcTreeWidth_ceil by lia. split; [reflexivity|].
  f_equal. rewrite Z.pow_add_r, Z.pow_1_r, Z.mul_comm by lia.
  apply ceil_half; [apply pow2_pos|]; lia.
Qed.

(** X2. For [leaves] just below [2^64] the sum [leaves + 2^height] wraps around
    and the width comes out as 0. *)
Theorem CalcTreeWidth_wraps (height leaves : Z) :
  1 <= height <= 63 -> 2 ^ 64 - 2 ^ height < leaves < 2 ^ 64 ->
  CalcTreeWidth height leaves = Ok 0.
Proof.
  intros Hh Hn. unfold CalcTreeWidth.
  destruct (64 <=? height) eqn:E; [apply Z.leb_le in E; lia|].
  pose proof (pow2_pos height ltac:(lia)) as Hp.
  pose proof (pow2_le_63 height ltac:(lia)) as Hq.
  assert (H63 : 2 ^ 63 + 2 ^ 63 = 2 ^ 64) by reflexivity.
  assert (H0 : 0 < 2 ^ 63) by reflexivity.
  assert (H1 : 2 <= 2 ^ height).
  { change 2 with (2 ^ 1) at 1. apply Z.pow_le_mono_r; lia. }
  rewrite Z.shiftl_1_l.
  rewrite (wrap64_small (2 ^ height)) by lia.
  replace (wrap64 (wrap64 (leaves + 2 ^ height) - 1))
    with (wrap64 (leaves + 2 ^ height - 1))
    by (unfold wrap64; now rewrite Zminus_mod_idemp_l).
  assert (Hw : wrap64 (leaves + 2 ^ height - 1) = leaves + 2 ^ height - 1 - 2 ^ 64).
  { unfold wrap64. symmetry. apply (Z.mod_unique _ _ 1); lia. }
  rewrite Hw, Z.shiftr_div_pow2 by lia.
  f_equal. apply Z.div_small. lia.
Qed.

Lemma folds_in_lower (len k : nat) :
  folds_in len k -> forall k', k = S k' -> (2 ^ k' < len)%nat.
Proof.
  induction 1 as [len Hle | len k Hgt Hrest IH]; intros k' E; [discriminate|].
  injection E as ->.
  destruct k' as [|k'']; [simpl; lia|].
  specialize (IH k'' eq_refl). rewrite Nat.pow_succ_r'.
  pose proof (Nat.div_mod_eq (len + 1) 2) as Ed.
  pose proof (Nat.mod_upper_bound (len + 1) 2 ltac:(lia)). lia.
Qed.

(** X3. The height of a tree of at least two leaves is the base-2 logarithm of
    the number of leaves, rounded up. *)
Theorem CalcTreeHeight_log2 (hashes : list uint256) :
  2 <= size hashes <= max_leaves ->
  exists height,
    CalcTreeHeight hashes = Ok height
    /\ 1 <= height <= 63
    /\ 2 ^ (height - 1) < size hashes <= 2 ^ height.
Proof.
  intros Hn.
  destruct (folds_in_total (length hashes)) as [k Hk].
  exists (Z.of_nat k).
  rewrite (CalcTreeHeight_folds hashes k Hk) by lia.
  pose proof (folds_in_le_63 _ _ Hk (proj2 Hn)) as Hk63.
  pose proof (folds_in_upper _ _ Hk) as Hup.
  apply Nat2Z.inj_le in Hup. rewrite Nat2Z.inj_pow in Hup.
  change (Z.of_nat 2) with 2 in Hup. fold (size hashes) in Hup.
  destruct k as [|k'].
  - change (2 ^ Z.of_nat 0) with 1 in Hup. lia.
  - pose proof (folds_in_lower _ _ Hk k' eq_refl) as Hlow.
    apply Nat2Z.inj_lt in Hlow. rewrite Nat2Z.inj_pow in Hlow.
    change (Z.of_nat 2) with 2 in Hlow. fold (size hashes) in Hlow.
    replace (Z.of_nat (S k') - 1) with (Z.of_nat k') by lia.
    repeat split; try lia.
Qed.

(** ** The passes of [ComputeMerkleRoot] *)

Lemma folds_in_level_gt (l : list uint256) (k : nat) :
  folds_in (length l) k ->
  forall h, (h < k)%nat -> (1 < length (level h l))%nat.
Proof.
  intros H. remember (length l) as len eqn:E. revert l E.
  induction H as [len Hle | len k Hgt _ IH]; intros l E h Hh; subst len; [lia|].
  destruct h as [|h]; [exact Hgt|].
  rewrite level_succ_r. apply IH; [now rewrite length_next_level | lia].
Qed.

(** X4. [ComputeMerkleRoot] makes as many passes as [CalcTreeHeight] says, the
    vector after [h] passes has [CalcTreeWidth(h, size)] elements, more
    than one before the last pass, and the root is what the last pass
    leaves. *)
Theorem ComputeMerkleRoot_passes (hashes : list uint256) (mutated : bool) :
  hashes <> [] -> size hashes <= max_leaves ->
  exists (height : nat) (root : uint256) (flag : option bool),
    CalcTreeHeight hashes = Ok (Z.of_nat height)
    /\ ComputeMerkleRoot hashes mutated = Ok (root, flag)
    /\ level height hashes = [root]
    /\ (forall h, (h <= height)%nat ->
          CalcTreeWidth (Z.of_nat h) (size hashes) = Ok (size (level h hashes)))
    /\ (forall h, (h < height)%nat -> 1 < size (level h hashes)).
Proof.
  intros Hne Hn.
  destruct (folds_in_total (length hashes)) as [k Hk].
  destruct (ComputeMerkleRoot_total hashes mutated k Hk) as [flag Hroot].
  pose proof (folds_in_le_63 _ _ Hk Hn) as Hk63.
  exists k, (hd uint256_zero (level k hashes)), flag.
  split; [now apply CalcTreeHeight_folds|]. split; [exact Hroot|].
  split; [|split].
  - pose proof (folds_in_level hashes k Hk) as Hle.
    pose proof (length_level_pos k hashes Hne) as Hpos.
    destruct (level k hashes) as [|r [|r' rest]]; cbn [length] in *;
      [lia | reflexivity | lia].
  - intros h Hh. apply CalcTreeWidth_level; [lia | exact Hn].
  - intros h Hh. pose proof (folds_in_level_gt hashes k Hk h Hh).
    unfold size. lia.
Qed.

(** X5. The root does not depend on whether the caller asks for the mutation
    flag; through a null pointer nothing is stored. *)
Theorem ComputeMerkleRoot_root_any_mutated (hashes : list uint256) :
  exists (root : uint256) (mutation : bool),
    ComputeMerkleRoot hashes true = Ok (root, Some mutation)
    /\ ComputeMerkleRoot hashes false = Ok (root, None).
Proof.
  destruct (folds_in_total (length hashes)) as [k Hk].
  pose proof (folds_in_lt _ _ Hk) as Hfuel.
  destruct (ComputeMerkleRoot_loop_levels hashes k Hk (length hashes) true false
              Hfuel) as [m1 E1].
  destruct (ComputeMerkleRoot_loop_levels hashes k Hk (length hashes) false false
              Hfuel) as [m2 E2].
  exists (hd uint256_zero (level k hashes)), m1.
  unfold ComputeMerkleRoot. rewrite E1, E2. cbn [bind].
  destruct (level k hashes); split; reflexivity.
Qed.

(** ** When the mutation flag is set *)

Lemma scan_pairs_true (l : list uint256) : scan_pairs l true = true.
Proof.
  induction l as [| a | a b l IH] using list_pair_ind; try reflexivity.
  cbn [scan_pairs]. now destruct (uint256_eqb a b).
Qed.

Lemma uint256_eqb_eq (a b : uint256) : uint256_eqb a b = true <-> a = b.
Proof. apply Z.eqb_eq. Qed.

(** The scan reports exactly the pairs of positions [(2i, 2i+1)] that hold
    the same hash. *)
Lemma scan_pairs_spec (l : list uint256) :
  scan_pairs l false = true <->
  exists (i : nat) (x : uint256),
    nth_error l (2 * i) = Some x /\ nth_error l (2 * i + 1) = Some x.
Proof.
  induction l as [| a | a b l IH] using list_pair_ind.
  - split; [discriminate|]. intros (i & x & H & _). now destruct i.
  - split; [discriminate|]. intros (i & x & _ & H).
    destruct i as [|i]; [discriminate|].
    replace (2 * S i + 1)%nat with (S (S (2 * i + 1))) in H by lia.
    cbn [nth_error] in H. discriminate.
  - cbn [scan_pairs]. destruct (uint256_eqb a b) eqn:E.
    + rewrite scan_pairs_true. split; [intros _|reflexivity].
      apply uint256_eqb_eq in E. subst b. now exists 0%nat, a.
    + rewrite IH. split.
      * intros (i & x & H1 & H2). exists (S i), x.
        replace (2 * S i)%nat with (S (S (2 * i))) by lia.
        replace (S (S (2 * i)) + 1)%nat with (S (S (2 * i + 1))) by lia.
        now split.
      * intros (i & x & H1 & H2). destruct i as [|i].
        -- cbn in H1, H2. injection H1 as <-. injection H2 as <-.
           unfold uint256_eqb in E. rewrite Z.eqb_refl in E. discriminate.
        -- exists i, x.
           replace (2 * S i)%nat with (S (S (2 * i))) in H1, H2 by lia.
           replace (S (S (2 * i)) + 1)%nat with (S (S (2 * i + 1))) in H2 by lia.
           now split.
Qed.

Lemma scan_pairs_orb (l : list uint256) (mutation : bool) :
  scan_pairs l mutation = mutation || scan_pairs l false.
Proof.
  destruct mutation; [apply scan_pairs_true | reflexivity].
Qed.

Lemma ComputeMerkleRoot_loop_flag (l : list uint256) (k : nat) :
  folds_in (length l) k ->
  forall (fuel : nat) (mutation flag : bool) (res : list uint256),
    ComputeMerkleRoot_loop fuel true l mutation = Ok (res, flag) ->
    flag = true <->
    mutation = true
    \/ exists (h i : nat) (x : uint256),
         nth_error (level h l) (2 * i) = Some x
         /\ nth_error (level h l) (2 * i + 1) = Some x.
Proof.
  intros H. remember (length l) as len eqn:E. revert l E.
  induction H as [len Hle | len k Hgt Hrest IH]; intros l E fuel mutation flag res;
    subst len.
  - assert (Hloop : ComputeMerkleRoot_loop fuel true l mutation = Ok (l, mutation)).
    { destruct fuel; cbn [ComputeMerkleRoot_loop];
        (destruct (1 <? length l)%nat eqn:T; [apply Nat.ltb_lt in T; lia|]);
        reflexivity. }
    rewrite Hloop. intros [= _ <-]. split; [now left|].
    intros [Hm | (h & i & x & H1 & H2)]; [exact Hm|].
    exfalso.
    assert (Hlen : (2 * i + 1 < length (level h l))%nat).
    { apply nth_error_Some. now rewrite H2. }
    pose proof (length_level_le h l). lia.
  - destruct fuel as [|fuel]; cbn [ComputeMerkleRoot_loop];
      (destruct (1 <? length l)%nat eqn:T; [|apply Nat.ltb_ge in T; lia]);
      [discriminate|].
    intros Hloop.
    rewrite (IH (next_level l) (eq_sym (length_next_level l)) _ _ _ _ Hloop).
    rewrite scan_pairs_orb.
    split.
    + intros [Hm | (h & i & x & H1 & H2)].
      * apply orb_prop in Hm as [Hm | Hm]; [now left|].
        right. apply scan_pairs_spec in Hm as (i & x & H1 & H2).
        now exists 0%nat, i, x.
      * right. exists (S h), i, x. now rewrite level_succ_r.
    + intros [-> | (h & i & x & H1 & H2)]; [now left|].
      destruct h as [|h].
      * left. apply orb_true_intro. right.
        apply scan_pairs_spec. now exists i, x.
      * right. exists h, i, x. now rewrite level_succ_r in H1, H2.
Qed.

(** X6. The flag stored through [mutated] is [true] exactly when, at some level
    of the fold, two nodes at positions [2i] and [2i+1] of the vector are
    equal.  No assumption on the hash function. *)
Theorem ComputeMerkleRoot_mutated_iff (hashes : list uint256) :
  exists (root : uint256) (mutation : bool),
    ComputeMerkleRoot hashes true = Ok (root, Some mutation)
    /\ (mutation = true <->
        exists (h i : nat) (x : uint256),
          nth_error (level h hashes) (2 * i) = Some x
          /\ nth_error (level h hashes) (2 * i + 1) = Some x).
Proof.
  destruct (folds_in_total (length hashes)) as [k Hk].
  destruct (ComputeMerkleRoot_loop_levels hashes k Hk (length hashes) true false
              (folds_in_lt _ _ Hk)) as [m E].
  exists (hd uint256_zero (level k hashes)), m. split.
  - unfold ComputeMerkleRoot. rewrite E. cbn [bind].
    now destruct (level k hashes).
  - rewrite (ComputeMerkleRoot_loop_flag hashes k Hk _ _ _ _ E).
    split; [intros [H | H]; [discriminate | exact H] | intros H; now right].
Qed.

(** ** Duplicating the last element of an odd vector *)

Lemma ComputeMerkleRoot_loop_unfold (fuel : nat) (check : bool)
    (l : list uint256) (mutation : bool) :
  ComputeMerkleRoot_loop (S fuel) check l mutation =
  if (1 <? length l)%nat
  then ComputeMerkleRoot_loop fuel check (next_level l)
         (if check then scan_pairs l mutation else mutation)
  else Ok (l, mutation).
Proof. reflexivity. Qed.

Lemma scan_pairs_padded (l : list uint256) :
  Nat.odd (length l) = true ->
  forall mutation, scan_pairs (push_back l (back l)) mutation = true.
Proof.
  unfold push_back, back.
  induction l as [| a | a b l IH] using list_pair_ind; intros Hodd mutation.
  - discriminate.
  - cbn. now rewrite uint256_eqb_refl.
  - destruct l as [|c l]; [discriminate|].
    change (last (a :: b :: c :: l) uint256_zero) with (last (c :: l) uint256_zero).
    cbn [app scan_pairs]. apply (IH Hodd).
Qed.

(** X7. The root collision behind CVE-2012-2459, at leaf level: an odd vector of
    three leaves or more and the same vector followed by a copy of its last
    leaf have the same root, and the longer one is reported as mutated. *)
Theorem ComputeMerkleRoot_padded_odd (hashes : list uint256) (mutated : bool) :
  Nat.odd (length hashes) = true -> (1 < length hashes)%nat ->
  exists (root : uint256) (flag : option bool),
    ComputeMerkleRoot hashes mutated = Ok (root, flag)
    /\ ComputeMerkleRoot (push_back hashes (back hashes)) true
       = Ok (root, Some true).
Proof.
  intros Hodd Hlen.
  set (padded := push_back hashes (back hashes)).
  assert (Hnext : next_level padded = next_level hashes).
  { unfold padded. now rewrite !next_level_pairs, pairs_of_padded. }
  assert (Hplen : length padded = S (length hashes)).
  { unfold padded, push_back. rewrite length_app. cbn [length]. lia. }
  destruct (folds_in_total (length (next_level hashes))) as [k Hk].
  pose proof (folds_in_lt _ _ Hk) as Hfuel.
  rewrite length_next_level in Hfuel.
  pose proof (half_up_lt _ Hlen) as Hhalf.
  unfold ComputeMerkleRoot.
  destruct (length hashes) as [|n] eqn:En; [lia|].
  rewrite Hplen, (ComputeMerkleRoot_loop_unfold n),
    (ComputeMerkleRoot_loop_unfold (S n)), Hplen, En.
  destruct (1 <? S n)%nat eqn:T1; [|apply Nat.ltb_ge in T1; lia].
  destruct (1 <? S (S n))%nat eqn:T2; [|apply Nat.ltb_ge in T2; lia].
  rewrite Hnext.
  unfold padded. rewrite (scan_pairs_padded hashes); [|now rewrite En].
  destruct (ComputeMerkleRoot_loop_levels _ k Hk n mutated
              (if mutated then scan_pairs hashes false else false)
              ltac:(lia)) as [m1 E1].
  destruct (ComputeMerkleRoot_loop_levels _ k Hk (S n) true true ltac:(lia))
    as [m2 E2].
  assert (Hm2 : m2 = true).
  { apply (ComputeMerkleRoot_loop_flag _ k Hk _ _ _ _ E2). now left. }
  subst m2. rewrite E1, E2. cbn [bind].
  destruct (level k (next_level hashes)); eexists; eexists; split; reflexivity.
Qed.

(** * Further properties of the positional hasher *)

(** A position at or beyond the width of its level makes the leftmost
    descent read past the end of the vector. *)
Lemma CalcHash_rec_beyond (hashs : list uint256) :
  hashs <> [] ->
  forall (h i : nat),
    (length (level h hashs) <= i)%nat -> Z.of_nat i * 2 ^ Z.of_nat h < 2 ^ 64 ->
    CalcHash_rec h (Z.of_nat i) hashs = Fault OutOfRange.
Proof.
  intros Hne h.
  induction h as [|h IH]; intros i Hi Hw.
  - cbn [CalcHash_rec]. rewrite (size_nonempty _ Hne), Nat2Z.id.
    rewrite level_zero in Hi. apply nth_error_None in Hi. now rewrite Hi.
  - rewrite CalcHash_rec_unfold, (size_nonempty _ Hne).
    rewrite level_succ, length_next_level in Hi.
    rewrite (Nat2Z.inj_succ h), Z.pow_succ_r in Hw by lia.
    pose proof (pow2_pos (Z.of_nat h) ltac:(lia)) as Hp.
    assert (Hi2 : Z.of_nat i * 2 < 2 ^ 64) by nia.
    rewrite (wrap64_small (Z.of_nat i * 2)) by lia.
    replace (Z.of_nat i * 2) with (Z.of_nat (2 * i)) by lia.
    rewrite IH; [reflexivity | | lia].
    pose proof (Nat.div_mod_eq (length (level h hashs) + 1) 2) as Ed.
    pose proof (Nat.mod_upper_bound (length (level h hashs) + 1) 2 ltac:(lia)).
    lia.
Qed.

(** What [CalcHash] returns at every position whose leaf range does not
    wrap around: the node of the fold, or an out-of-range read. *)
Lemma CalcHash_rec_node (hashs : list uint256) (h i : nat) :
  hashs <> [] -> size hashs <= max_leaves -> (h <= 64)%nat ->
  Z.of_nat i * 2 ^ Z.of_nat h < 2 ^ 64 ->
  CalcHash_rec h (Z.of_nat i) hashs =
  match nth_error (level h hashs) i with
  | Some x => Ok x
  | None => Fault OutOfRange
  end.
Proof.
  intros Hne Hn Hh Hw.
  destruct (nth_error (level h hashs) i) as [x|] eqn:E.
  - now apply CalcHash_rec_level.
  - apply nth_error_None in E. now apply CalcHash_rec_beyond.
Qed.

(** X10. The positional hasher agrees with the fold at every node, not at the
    root only: [CalcHash(h, i, hashes)] is element [i] of the vector that
    [ComputeMerkleRoot] holds after [h] passes. *)
Theorem CalcHash_is_level_node (hashes : list uint256) (h i : nat)
    (x : uint256) :
  hashes <> [] -> size hashes <= max_leaves -> (h <= 64)%nat ->
  nth_error (level h hashes) i = Some x ->
  CalcHash (Z.of_nat h) (Z.of_nat i) hashes = Ok x.
Proof.
  intros Hne Hn Hh Hx. unfold CalcHash. rewrite Nat2Z.id.
  now apply CalcHash_rec_level.
Qed.

(** X11. [CalcHash] does not check [pos] against the width of the level: at a
    position at or beyond the width it reads outside the vector. *)
Theorem CalcHash_beyond_width (hashs : list uint256) (height pos width : Z) :
  hashs <> [] -> size hashs <= max_leaves -> 0 <= height <= 63 ->
  CalcTreeWidth height (size hashs) = Ok width ->
  width <= pos -> pos * 2 ^ height < 2 ^ 64 ->
  CalcHash height pos hashs = Fault OutOfRange.
Proof.
  intros Hne Hn Hh Hwidth Hpos Hw.
  rewrite <- (Z2Nat.id height) in Hwidth, Hw by lia.
  rewrite CalcTreeWidth_level in Hwidth by lia.
  injection Hwidth as <-.
  unfold CalcHash. rewrite <- (Z2Nat.id pos) in * by lia.
  apply CalcHash_rec_beyond; [exact Hne | lia | exact Hw].
Qed.

(** A node of the fold depends on the leaves below it only. *)
Lemma level_local (l1 l2 : list uint256) (h : nat) :
  forall i : nat,
    (forall m : nat, (i * 2 ^ h <= m < (i + 1) * 2 ^ h)%nat ->
                     nth_error l1 m = nth_error l2 m) ->
    nth_error (level h l1) i = nth_error (level h l2) i.
Proof.
  induction h as [|h IH]; intros i Hsame.
  - rewrite !level_zero. apply Hsame. cbn [Nat.pow]. lia.
  - rewrite !level_succ, !nth_error_next_level.
    rewrite (IH (2 * i)%nat), (IH (2 * i + 1)%nat); [reflexivity | |];
      intros m Hm; apply Hsame; rewrite Nat.pow_succ_r'; nia.
Qed.

(** X12. [CalcHash] at a position depends on the leaves of its subtree only:
    two vectors of the same length that agree on the leaves
    [pos * 2^height .. (pos+1) * 2^height - 1] give the same result there. *)
Theorem CalcHash_subtree_local (hashs1 hashs2 : list uint256) (height pos : Z) :
  hashs1 <> [] -> length hashs1 = length hashs2 -> size hashs1 <= max_leaves ->
  0 <= height <= 63 -> 0 <= pos -> pos * 2 ^ height < 2 ^ 64 ->
  (forall m : nat,
      pos * 2 ^ height <= Z.of_nat m < (pos + 1) * 2 ^ height ->
      nth_error hashs1 m = nth_error hashs2 m) ->
  CalcHash height pos hashs1 = CalcHash height pos hashs2.
Proof.
  intros Hne Hlen Hn Hh Hpos Hw Hsame.
  assert (Hne2 : hashs2 <> []).
  { intros ->. destruct hashs1; [contradiction | discriminate]. }
  assert (Hn2 : size hashs2 <= max_leaves) by (unfold size in *; now rewrite <- Hlen).
  unfold CalcHash.
  rewrite <- (Z2Nat.id pos) in * by lia.
  rewrite <- (Z2Nat.id height) in Hw, Hsame by lia.
  rewrite !CalcHash_rec_node by (assumption || lia).
  rewrite (level_local hashs1 hashs2); [reflexivity|].
  intros m Hm. apply Hsame.
  destruct Hm as [Hlo Hhi].
  apply Nat2Z.inj_le in Hlo. apply Nat2Z.inj_lt in Hhi.
  rewrite Nat2Z.inj_mul, Nat2Z.inj_pow in Hlo, Hhi.
  rewrite Nat2Z.inj_add in Hhi.
  change (Z.of_nat 2) with 2 in *. change (Z.of_nat 1) with 1 in *.
  split; assumption.
Qed.

(** * [findDiffLeaf] finds the first differing leaf *)

Lemma findDiffLeaf_loop_unfold (n : nat) (index : Z) (hashs1 hashs2 : list uint256) :
  findDiffLeaf_loop (S n) index hashs1 hashs2 =
  (h1 <- CalcHash (Z.of_nat (S n)) index hashs1 ;;
   h2 <- CalcHash (Z.of_nat (S n)) index hashs2 ;;
   findDiffLeaf_loop n
     (if negb (uint256_eqb h1 h2) then wrap64 (index * 2)
      else wrap64 (wrap64 (index * 2) + 2))
     hashs1 hashs2).
Proof. reflexivity. Qed.

Lemma length_level_eq (l1 l2 : list uint256) (h : nat) :
  length l1 = length l2 -> length (level h l1) = length (level h l2).
Proof.
  intros H. induction h as [|h IH]; [exact H|].
  now rewrite !level_succ, !length_next_level, IH.
Qed.

Lemma hashed_pairs_level (l : list uint256) (k : nat) :
  folds_in (length l) k ->
  forall (fuel h : nat), (k <= fuel)%nat -> (h < k)%nat ->
    incl (pairs_of (level h l)) (hashed_pairs fuel l).
Proof.
  intros H. remember (length l) as len eqn:E. revert l E.
  induction H as [len Hle | len k Hgt _ IH]; intros l E fuel h Hf Hh; subst len;
    [lia|].
  destruct fuel as [|fuel]; [lia|]. cbn [hashed_pairs].
  destruct (1 <? length l)%nat eqn:T; [|apply Nat.ltb_ge in T; lia].
  destruct h as [|h].
  - rewrite level_zero. apply incl_appl, incl_refl.
  - rewrite level_succ_r. apply incl_appr.
    apply IH; [now rewrite length_next_level | lia | lia].
Qed.

Lemma tree_pairs_level (l : list uint256) (k h : nat) :
  folds_in (length l) k -> (h < k)%nat ->
  incl (pairs_of (level h l)) (tree_pairs l).
Proof.
  intros Hk Hh. apply (hashed_pairs_level l k Hk); [|exact Hh].
  now apply folds_in_lt.
Qed.

(** Equal pairs at position [i] mean equal nodes at positions [2i] and
    [2i+1]. *)
Lemma nth_error_pairs_of_eq (l1 l2 : list uint256) (i : nat) :
  length l1 = length l2 ->
  nth_error (pairs_of l1) i = nth_error (pairs_of l2) i ->
  nth_error l1 (2 * i) = nth_error l2 (2 * i)
  /\ nth_error l1 (2 * i + 1) = nth_error l2 (2 * i + 1).
Proof.
  intros Hlen. rewrite !nth_error_pairs_of.
  destruct (nth_error l1 (2 * i)) as [x1|] eqn:E1,
           (nth_error l2 (2 * i)) as [x2|] eqn:E2; try discriminate.
  - destruct (nth_error l1 (2 * i + 1)) as [y1|] eqn:F1,
             (nth_error l2 (2 * i + 1)) as [y2|] eqn:F2;
      intros [= -> Hy]; subst; split; try reflexivity; exfalso.
    + apply nth_error_None in F2.
      assert ((2 * i + 1 < length l1)%nat) by (apply nth_error_Some; now rewrite F1).
      lia.
    + apply nth_error_None in F1.
      assert ((2 * i + 1 < length l2)%nat) by (apply nth_error_Some; now rewrite F2).
      lia.
  - intros _. split; [reflexivity|].
    apply nth_error_None in E1, E2.
    assert (H1 : nth_error l1 (2 * i + 1) = None) by (apply nth_error_None; lia).
    assert (H2 : nth_error l2 (2 * i + 1) = None) by (apply nth_error_None; lia).
    now rewrite H1, H2.
Qed.

Lemma half_cases (c : nat) : (c = 2 * (c / 2) \/ c = 2 * (c / 2) + 1)%nat.
Proof.
  pose proof (Nat.div_mod_eq c 2).
  pose proof (Nat.mod_upper_bound c 2 ltac:(lia)). lia.
Qed.

Lemma div_pow2_succ (j h : nat) : (j / 2 ^ S h = j / 2 ^ h / 2)%nat.
Proof.
  rewrite Nat.pow_succ_r', Nat.mul_comm. symmetry. apply Nat.Div0.div_div.
Qed.

Section FirstDifference.

Variables hashs1 hashs2 : list uint256.
Variables j k : nat.

Hypothesis same_length : length hashs1 = length hashs2.
Hypothesis rounds : folds_in (length hashs1) k.
Hypothesis fits : size hashs1 <= max_leaves.
Hypothesis same_before :
  forall m : nat, (m < j)%nat -> nth_error hashs1 m = nth_error hashs2 m.
Hypothesis differ_at : nth_error hashs1 j <> nth_error hashs2 j.
Hypothesis no_collision : collision_free (tree_pairs hashs1 ++ tree_pairs hashs2).

Lemma first_diff_in_range : (j < length hashs1)%nat.
Proof.
  destruct (Nat.lt_ge_cases j (length hashs1)) as [H | H]; [exact H|].
  exfalso. apply differ_at.
  assert (H1 : nth_error hashs1 j = None) by (apply nth_error_None; lia).
  assert (H2 : nth_error hashs2 j = None) by (apply nth_error_None; lia).
  now rewrite H1, H2.
Qed.

Lemma first_diff_nonempty : hashs1 <> [] /\ hashs2 <> [].
Proof.
  pose proof first_diff_in_range as H.
  split; intros E; rewrite E in *; cbn [length] in *; lia.
Qed.

Lemma rounds2 : folds_in (length hashs2) k.
Proof. now rewrite <- same_length. Qed.

(** Every node above the first differing leaf differs. *)
Lemma ancestors_differ (h : nat) :
  (h <= k)%nat ->
  nth_error (level h hashs1) (j / 2 ^ h) <> nth_error (level h hashs2) (j / 2 ^ h).
Proof.
  induction h as [|h IH]; intros Hh.
  - rewrite !level_zero. cbn [Nat.pow]. now rewrite Nat.div_1_r.
  - specialize (IH ltac:(lia)). intros Heq. apply IH. clear IH.
    rewrite div_pow2_succ in Heq.
    set (c := (j / 2 ^ h)%nat) in *.
    rewrite !level_succ, !next_level_pairs, !nth_error_map in Heq.
    assert (Hpairs : nth_error (pairs_of (level h hashs1)) (c / 2)
                     = nth_error (pairs_of (level h hashs2)) (c / 2)).
    { destruct (nth_error (pairs_of (level h hashs1)) (c / 2)) as [p|] eqn:Ep,
               (nth_error (pairs_of (level h hashs2)) (c / 2)) as [q|] eqn:Eq;
        try discriminate; [|reflexivity].
      f_equal. apply no_collision.
      - apply in_or_app. left.
        apply (tree_pairs_level hashs1 k h rounds); [lia|].
        eapply nth_error_In, Ep.
      - apply in_or_app. right.
        apply (tree_pairs_level hashs2 k h rounds2); [lia|].
        eapply nth_error_In, Eq.
      - now injection Heq. }
    apply nth_error_pairs_of_eq in Hpairs as [H0 H1];
      [|now apply length_level_eq].
    destruct (half_cases c) as [E | E]; rewrite E; assumption.
Qed.

Lemma ancestor_in_range (h : nat) :
  (h <= k)%nat -> (j / 2 ^ h < length (level h hashs1))%nat.
Proof.
  intros Hh. pose proof (ancestors_differ h Hh) as Hd.
  destruct (Nat.lt_ge_cases (j / 2 ^ h) (length (level h hashs1))) as [H | H];
    [exact H|].
  exfalso. apply Hd.
  assert (H1 : nth_error (level h hashs1) (j / 2 ^ h) = None)
    by (apply nth_error_None; lia).
  assert (H2 : nth_error (level h hashs2) (j / 2 ^ h) = None).
  { apply nth_error_None. rewrite <- (length_level_eq hashs1 hashs2 h same_length).
    lia. }
  now rewrite H1, H2.
Qed.

(** Every node entirely to the left of the first differing leaf is the
    same in both trees. *)
Lemma left_of_first_diff (h i : nat) :
  ((i + 1) * 2 ^ h <= j)%nat ->
  nth_error (level h hashs1) i = nth_error (level h hashs2) i.
Proof.
  intros Hi. apply level_local. intros m Hm. apply same_before. lia.
Qed.

Lemma CalcHash_node1 (h i : nat) :
  (h <= k)%nat -> (i <= j / 2 ^ h)%nat ->
  exists x, nth_error (level h hashs1) i = Some x
            /\ CalcHash (Z.of_nat h) (Z.of_nat i) hashs1 = Ok x.
Proof.
  intros Hh Hi. pose proof (ancestor_in_range h Hh) as Hr.
  pose proof (folds_in_le_63 _ _ rounds fits) as Hk.
  destruct (nth_error (level h hashs1) i) as [x|] eqn:E.
  - exists x. split; [reflexivity|].
    unfold CalcHash. rewrite Nat2Z.id.
    apply CalcHash_rec_level; try assumption; [|lia].
    apply first_diff_nonempty.
  - apply nth_error_None in E. lia.
Qed.

Lemma CalcHash_node2 (h i : nat) :
  (h <= k)%nat -> (i <= j / 2 ^ h)%nat ->
  exists x, nth_error (level h hashs2) i = Some x
            /\ CalcHash (Z.of_nat h) (Z.of_nat i) hashs2 = Ok x.
Proof.
  intros Hh Hi. pose proof (ancestor_in_range h Hh) as Hr.
  rewrite (length_level_eq hashs1 hashs2 h same_length) in Hr.
  pose proof (folds_in_le_63 _ _ rounds fits) as Hk.
  destruct (nth_error (level h hashs2) i) as [x|] eqn:E.
  - exists x. split; [reflexivity|].
    unfold CalcHash. rewrite Nat2Z.id.
    apply CalcHash_rec_level; try assumption; [| |lia].
    + apply first_diff_nonempty.
    + unfold size in *. now rewrite <- same_length.
  - apply nth_error_None in E. lia.
Qed.

Lemma first_diff_small : Z.of_nat j < 2 ^ 63.
Proof.
  pose proof first_diff_in_range. unfold size, max_leaves in fits. lia.
Qed.

(** The descent: entering the loop at height [n] with the left child of the
    differing node of height [n + 1], it leaves with the left one of the two
    leaves below the differing node of height 1. *)
Lemma findDiffLeaf_loop_first_diff (n : nat) :
  (n < k)%nat ->
  findDiffLeaf_loop n (Z.of_nat (2 * (j / 2 ^ S n))) hashs1 hashs2
  = Ok (Z.of_nat (2 * (j / 2))).
Proof.
  induction n as [|n IH]; intros Hn.
  - cbn [findDiffLeaf_loop]. now rewrite Nat.pow_1_r.
  - rewrite findDiffLeaf_loop_unfold.
    set (c := (j / 2 ^ S n)%nat).
    assert (Ec : (j / 2 ^ S (S n) = c / 2)%nat) by apply div_pow2_succ.
    rewrite Ec.
    assert (Hcj : (c <= j)%nat).
    { unfold c. apply Nat.Div0.div_le_upper_bound.
      pose proof (Nat.pow_nonzero 2 (S n) ltac:(lia)). nia. }
    pose proof first_diff_small as Hj.
    destruct (CalcHash_node1 (S n) (2 * (c / 2)))
      as (x1 & N1 & ->); [lia | destruct (half_cases c); fold c; lia |].
    destruct (CalcHash_node2 (S n) (2 * (c / 2)))
      as (x2 & N2 & ->); [lia | destruct (half_cases c); fold c; lia |].
    cbn [bind].
    assert (Hnext : (if negb (uint256_eqb x1 x2)
                     then wrap64 (Z.of_nat (2 * (c / 2)) * 2)
                     else wrap64 (wrap64 (Z.of_nat (2 * (c / 2)) * 2) + 2))
                    = Z.of_nat (2 * c)).
    { destruct (half_cases c) as [E | E].
      - (* the left child differs *)
        assert (Hx : x1 <> x2).
        { intros ->. apply (ancestors_differ (S n) ltac:(lia)).
          fold c. rewrite E. now rewrite N1, N2. }
        rewrite (uint256_eqb_neq _ _ Hx). cbn [negb].
        rewrite wrap64_small by lia64. lia.
      - (* the left child is the same: the right one differs *)
        assert (Hx : x1 = x2).
        { pose proof (left_of_first_diff (S n) (2 * (c / 2))) as Hl.
          rewrite N1, N2 in Hl. enough (Some x1 = Some x2) by congruence.
          apply Hl.
          replace (2 * (c / 2) + 1)%nat with c by lia.
          unfold c. rewrite Nat.mul_comm. apply Nat.Div0.mul_div_le. }
        subst x2. rewrite uint256_eqb_refl. cbn [negb].
        rewrite (wrap64_small (Z.of_nat (2 * (c / 2)) * 2)) by lia64.
        rewrite wrap64_small by lia64. lia. }
    rewrite Hnext. apply IH. lia.
Qed.

Lemma findDiffLeaf_first_diff_rounds :
  (2 <= length hashs1)%nat -> findDiffLeaf hashs1 hashs2 = Ok (Z.of_nat j).
Proof.
  intros Hlen.
  pose proof (folds_in_le_63 _ _ rounds fits) as Hk63.
  pose proof first_diff_small as Hj.
  pose proof first_diff_in_range as Hjn.
  assert (Hk1 : (1 <= k)%nat).
  { destruct rounds as [len Hle | len k' Hgt _]; lia. }
  assert (Htop : (j / 2 ^ k = 0)%nat).
  { apply Nat.div_small. pose proof (folds_in_upper _ _ rounds). lia. }
  (* the roots differ *)
  destruct (ComputeMerkleRoot_total hashs1 true k rounds) as [f1 R1].
  destruct (ComputeMerkleRoot_total hashs2 true k rounds2) as [f2 R2].
  assert (Hroot : hd uint256_zero (level k hashs1) <> hd uint256_zero (level k hashs2)).
  { pose proof (ancestors_differ k (le_n k)) as Hd. rewrite Htop in Hd.
    intros E. apply Hd.
    pose proof (ancestor_in_range k (le_n k)) as Hr. rewrite Htop in Hr.
    pose proof (length_level_eq hashs1 hashs2 k same_length) as Hl.
    destruct (level k hashs1) as [|r1 t1]; [cbn in Hr; lia|].
    destruct (level k hashs2) as [|r2 t2]; [discriminate|].
    cbn in E |- *. now subst. }
  unfold findDiffLeaf. rewrite R1, R2. cbn [bind].
  rewrite (uint256_eqb_neq _ _ Hroot).
  rewrite (CalcTreeHeight_folds _ _ rounds fits).
  rewrite (CalcTreeHeight_folds _ _ rounds2)
    by (unfold size in *; now rewrite <- same_length).
  cbn [bind]. rewrite Z.eqb_refl. cbn [negb].
  rewrite findDiffLeaf_descent_rounds by lia64.
  rewrite Nat2Z.id.
  (* the descent *)
  replace 0 with (Z.of_nat (2 * (j / 2 ^ S (k - 1)))) at 1
    by (replace (S (k - 1)) with k by lia; rewrite Htop; reflexivity).
  rewrite findDiffLeaf_loop_first_diff by lia. cbn [bind].
  (* the two leaves *)
  change 0 with (Z.of_nat 0).
  destruct (CalcHash_node1 0 (2 * (j / 2))) as (x1 & N1 & ->);
    [lia | cbn [Nat.pow]; rewrite Nat.div_1_r; destruct (half_cases j); lia |].
  destruct (CalcHash_node2 0 (2 * (j / 2))) as (x2 & N2 & ->);
    [lia | cbn [Nat.pow]; rewrite Nat.div_1_r; destruct (half_cases j); lia |].
  cbn [bind]. rewrite level_zero in N1, N2.
  destruct (half_cases j) as [E | E].
  - assert (Hx : x1 <> x2).
    { intros ->. apply differ_at. rewrite E. now rewrite N1, N2. }
    rewrite (uint256_eqb_neq _ _ Hx). f_equal. lia.
  - assert (Hx : x1 = x2).
    { pose proof (same_before (2 * (j / 2)) ltac:(lia)) as Hs.
      rewrite N1, N2 in Hs. congruence. }
    subst x2. rewrite uint256_eqb_refl. f_equal.
    rewrite wrap64_small by lia64. lia.
Qed.

End FirstDifference.

(** X13. For two vectors of the same length, two leaves at least, [findDiffLeaf]
    returns the index of the first leaf at which they differ, whatever the
    number of leaves and however many leaves differ after that one.  The
    pairs hashed for the two vectors are assumed not to collide. *)
Theorem findDiffLeaf_first_difference (hashs1 hashs2 : list uint256) (j : nat) :
  length hashs1 = length hashs2 -> (2 <= length hashs1)%nat ->
  size hashs1 <= max_leaves ->
  (forall m : nat, (m < j)%nat -> nth_error hashs1 m = nth_error hashs2 m) ->
  nth_error hashs1 j <> nth_error hashs2 j ->
  collision_free (tree_pairs hashs1 ++ tree_pairs hashs2) ->
  findDiffLeaf hashs1 hashs2 = Ok (Z.of_nat j).
Proof.
  intros Hlen H2 Hn Hsame Hdiff Hfree.
  destruct (folds_in_total (length hashs1)) as [k Hk].
  now apply (findDiffLeaf_first_diff_rounds hashs1 hashs2 j k).
Qed.

(** X14. Vectors with the same root, identical ones in particular, give index 0,
    the value also returned for a difference at the first leaf. *)
Theorem findDiffLeaf_same_root (hashs1 hashs2 : list uint256) :
  (merkle_root hashs1 = merkle_root hashs2 -> findDiffLeaf hashs1 hashs2 = Ok 0)
  /\ findDiffLeaf hashs1 hashs1 = Ok 0.
Proof.
  split; [apply findDiffLeaf_equal_roots|].
  now apply findDiffLeaf_equal_roots.
Qed.

(** * The root binds the leaves *)

Lemma first_difference_exists (l1 : list uint256) :
  forall l2 : list uint256,
    length l1 = length l2 -> l1 <> l2 ->
    exists j : nat,
      (forall m : nat, (m < j)%nat -> nth_error l1 m = nth_error l2 m)
      /\ nth_error l1 j <> nth_error l2 j.
Proof.
  induction l1 as [|x l1 IH]; intros [|y l2] Hlen Hne; try discriminate.
  - contradiction.
  - destruct (Z.eq_dec x y) as [-> | Hxy].
    + destruct (IH l2) as (j & Hbefore & Hat).
      * now injection Hlen.
      * intros ->. now apply Hne.
      * exists (S j). split; [|exact Hat].
        intros [|m] Hm; [reflexivity|]. apply Hbefore. lia.
    + exists 0%nat. split; [intros m Hm; lia|].
      cbn [nth_error]. congruence.
Qed.

(** X9. Two vectors of the same length that have the same root are the same
    vector, unless two of the pairs hashed for them collide. *)
Theorem merkle_root_binding (hashs1 hashs2 : list uint256) :
  length hashs1 = length hashs2 ->
  collision_free (tree_pairs hashs1 ++ tree_pairs hashs2) ->
  merkle_root hashs1 = merkle_root hashs2 ->
  hashs1 = hashs2.
Proof.
  intros Hlen Hfree Hroot.
  destruct (list_eq_dec Z.eq_dec hashs1 hashs2) as [E | Hne]; [exact E|].
  exfalso.
  destruct (first_difference_exists hashs1 hashs2 Hlen Hne) as (j & Hbefore & Hat).
  destruct (folds_in_total (length hashs1)) as [k Hk].
  assert (Hk2 : folds_in (length hashs2) k) by now rewrite <- Hlen.
  pose proof (ancestors_differ hashs1 hashs2 j k Hlen Hk Hat Hfree k (le_n k)) as Hd.
  pose proof (ancestor_in_range hashs1 hashs2 j k Hlen Hk Hat Hfree k (le_n k)) as Hr.
  assert (Htop : (j / 2 ^ k = 0)%nat).
  { apply Nat.div_small.
    pose proof (first_diff_in_range hashs1 hashs2 j Hlen Hat).
    pose proof (folds_in_upper _ _ Hk). lia. }
  rewrite Htop in Hd, Hr.
  destruct (ComputeMerkleRoot_total hashs1 true k Hk) as [f1 R1].
  destruct (ComputeMerkleRoot_total hashs2 true k Hk2) as [f2 R2].
  unfold merkle_root in Hroot. rewrite R1, R2 in Hroot. cbn [bind] in Hroot.
  injection Hroot as Hroot.
  pose proof (length_level_eq hashs1 hashs2 k Hlen) as Hl.
  destruct (level k hashs1) as [|r1 t1]; [cbn in Hr; lia|].
  destruct (level k hashs2) as [|r2 t2]; [discriminate|].
  cbn in Hroot, Hd. congruence.
Qed.

(** X8. The root of a vector of more than one hash is the root of the vector of
    the hashes of its pairs. *)
Theorem ComputeMerkleRoot_of_pairs (hashes : list uint256) (mutated : bool) :
  (1 < length hashes)%nat ->
  exists (root : uint256) (flag1 flag2 : option bool),
    ComputeMerkleRoot hashes mutated = Ok (root, flag1)
    /\ ComputeMerkleRoot (map hash_pair (pairs_of hashes)) mutated
       = Ok (root, flag2).
Proof.
  intros Hlen. rewrite <- next_level_pairs.
  destruct (folds_in_total (length (next_level hashes))) as [k Hk].
  assert (Hk' : folds_in (length hashes) (S k)).
  { apply folds_step; [exact Hlen | now rewrite <- length_next_level]. }
  destruct (ComputeMerkleRoot_total hashes mutated (S k) Hk') as [f1 R1].
  destruct (ComputeMerkleRoot_total (next_level hashes) mutated k Hk) as [f2 R2].
  rewrite level_succ_r in R1.
  now exists (hd uint256_zero (level k (next_level hashes))), f1, f2.
Qed.

End Merkle.

(** * The theorems at concrete inputs

    The functions are run on small vectors with [toy_hash] in place of the
    double SHA-256. *)

(** Whichever of eight leaves is changed, [findDiffLeaf] finds it. *)
Example findDiffLeaf_every_position :
  map (fun k : nat =>
         findDiffLeaf toy_hash [1; 2; 3; 4; 5; 6; 7; 8]
           (firstn k [1; 2; 3; 4; 5; 6; 7; 8] ++ [99]
            ++ skipn (S k) [1; 2; 3; 4; 5; 6; 7; 8]))
      (seq 0 8)
  = [Ok 0; Ok 1; Ok 2; Ok 3; Ok 4; Ok 5; Ok 6; Ok 7].
Proof. vm_compute. reflexivity. Qed.

(** The two vectors of the comment at the head of merkle.cpp. *)
Example ComputeMerkleRoot_CVE_2012_2459 :
  ComputeMerkleRoot toy_hash [1; 2; 3; 4; 5; 6] true = Ok (4910711442, Some false)
  /\ ComputeMerkleRoot toy_hash [1; 2; 3; 4; 5; 6; 5; 6] true
     = Ok (4910711442, Some true)
  /\ CalcHash toy_hash 3 0 [1; 2; 3; 4; 5; 6] = Ok 4910711442.
Proof. repeat split. Qed.

Ltac NoDup_numerals :=
  repeat (apply NoDup_cons; [cbn [In]; intuition discriminate|]); apply NoDup_nil.

Lemma CalcTreeWidth_at_height_and_zero_witness :
  (1 <= size [11; 12; 13; 14; 15] <= max_leaves
   /\ (height <- CalcTreeHeight [11; 12; 13; 14; 15] ;;
       CalcTreeWidth height (size [11; 12; 13; 14; 15])) = Ok 1)
  /\ (0 <= 5 < 2 ^ 64 /\ CalcTreeWidth 0 5 = Ok 5).
Proof.
  assert (H1 : 1 <= size [11; 12; 13; 14; 15] <= max_leaves)
    by (vm_compute; split; discriminate).
  assert (H2 : 0 <= 5 < 2 ^ 64) by (vm_compute; split; [discriminate | reflexivity]).
  split; split.
  - exact H1.
  - exact (proj1 CalcTreeWidth_at_height_and_zero [11; 12; 13; 14; 15] H1).
  - exact H2.
  - exact (proj2 CalcTreeWidth_at_height_and_zero 5 H2).
Defined.

Lemma CalcHash_top_is_merkle_root_witness :
  [1; 2; 3; 4; 5] <> [] /\ size [1; 2; 3; 4; 5] <= max_leaves
  /\ exists root flag,
       ComputeMerkleRoot toy_hash [1; 2; 3; 4; 5] true = Ok (root, flag)
       /\ (height <- CalcTreeHeight [1; 2; 3; 4; 5] ;;
           CalcHash toy_hash height 0 [1; 2; 3; 4; 5]) = Ok root.
Proof.
  assert (H1 : [1; 2; 3; 4; 5] <> []) by discriminate.
  assert (H2 : size [1; 2; 3; 4; 5] <= max_leaves) by (vm_compute; discriminate).
  split; [exact H1|]. split; [exact H2|].
  exact (CalcHash_top_is_merkle_root toy_hash [1; 2; 3; 4; 5] true H1 H2).
Defined.

Lemma ComputeMerkleRoot_duplicated_tail_witness :
  NoDup [1; 2; 3; 4; 5; 6]
  /\ collision_free toy_hash (tree_pairs toy_hash [1; 2; 3; 4; 5; 6])
  /\ exists root,
       ComputeMerkleRoot toy_hash [1; 2; 3; 4; 5; 6] true = Ok (root, Some false)
       /\ ComputeMerkleRoot toy_hash [1; 2; 3; 4; 5; 6; 5; 6] true
          = Ok (root, Some true).
Proof.
  assert (H1 : NoDup [1; 2; 3; 4; 5; 6]) by NoDup_numerals.
  assert (H2 : collision_free toy_hash (tree_pairs toy_hash [1; 2; 3; 4; 5; 6]))
    by (apply collision_freeb_sound; vm_compute; reflexivity).
  split; [exact H1|]. split; [exact H2|].
  exact (ComputeMerkleRoot_duplicated_tail toy_hash 1 2 3 4 5 6 H1 H2).
Defined.

Lemma findDiffLeaf_eight_leaves_index_5_witness :
  length [1; 2; 3; 4; 5; 6; 7; 8] = 8%nat
  /\ length [1; 2; 3; 4; 5; 9; 7; 8] = 8%nat
  /\ (forall i : nat, i <> 5%nat ->
        nth_error [1; 2; 3; 4; 5; 6; 7; 8] i = nth_error [1; 2; 3; 4; 5; 9; 7; 8] i)
  /\ nth_error [1; 2; 3; 4; 5; 6; 7; 8] 5 <> nth_error [1; 2; 3; 4; 5; 9; 7; 8] 5
  /\ collision_free toy_hash
       (tree_pairs toy_hash [1; 2; 3; 4; 5; 6; 7; 8]
        ++ tree_pairs toy_hash [1; 2; 3; 4; 5; 9; 7; 8])
  /\ findDiffLeaf toy_hash [1; 2; 3; 4; 5; 6; 7; 8] [1; 2; 3; 4; 5; 9; 7; 8] = Ok 5.
Proof.
  assert (H1 : length [1; 2; 3; 4; 5; 6; 7; 8] = 8%nat) by reflexivity.
  assert (H2 : length [1; 2; 3; 4; 5; 9; 7; 8] = 8%nat) by reflexivity.
  assert (H3 : forall i : nat, i <> 5%nat ->
             nth_error [1; 2; 3; 4; 5; 6; 7; 8] i
             = nth_error [1; 2; 3; 4; 5; 9; 7; 8] i).
  { intros i Hi.
    destruct i as [|[|[|[|[|[|[|[|i]]]]]]]]; try reflexivity.
    contradiction. }
  assert (H4 : nth_error [1; 2; 3; 4; 5; 6; 7; 8] 5
               <> nth_error [1; 2; 3; 4; 5; 9; 7; 8] 5) by discriminate.
  assert (H5 : collision_free toy_hash
                 (tree_pairs toy_hash [1; 2; 3; 4; 5; 6; 7; 8]
                  ++ tree_pairs toy_hash [1; 2; 3; 4; 5; 9; 7; 8]))
    by (apply collision_freeb_sound; vm_compute; reflexivity).
  repeat (split; [assumption|]).
  exact (findDiffLeaf_eight_leaves_index_5 toy_hash _ _ H1 H2 H3 H4 H5).
Defined.

Lemma findDiffLeaf_height_mismatch_witness :
  size [1; 2; 3] <= max_leaves /\ size [1] <= max_leaves
  /\ merkle_root toy_hash [1; 2; 3] <> merkle_root toy_hash [1]
  /\ CalcTreeHeight [1; 2; 3] <> CalcTreeHeight [1]
  /\ findDiffLeaf toy_hash [1; 2; 3] [1] = Fault AssertionFailed.
Proof.
  assert (H1 : size [1; 2; 3] <= max_leaves) by (vm_compute; discriminate).
  assert (H2 : size [1] <= max_leaves) by (vm_compute; discriminate).
  assert (H3 : merkle_root toy_hash [1; 2; 3] <> merkle_root toy_hash [1])
    by (vm_compute; discriminate).
  assert (H4 : CalcTreeHeight [1; 2; 3] <> CalcTreeHeight [1])
    by (vm_compute; discriminate).
  repeat (split; [assumption|]).
  exact (findDiffLeaf_height_mismatch toy_hash _ _ H1 H2 H3 H4).
Defined.

(** C4 (counterexample). The one-leaf vector holding the hash of [1] and
    [2], and the two-leaf vector [[1; 2]], have the same root and tree
    heights 0 and 1: [findDiffLeaf] returns index 0, no assertion fails.
    By [findDiffLeaf_equal_roots] this does not depend on the hash
    function. *)
Lemma findDiffLeaf_height_mismatch_returns :
  CalcTreeHeight [toy_hash 1 2] = Ok 0 /\ CalcTreeHeight [1; 2] = Ok 1
  /\ CalcTreeHeight [toy_hash 1 2] <> CalcTreeHeight [1; 2]
  /\ findDiffLeaf toy_hash [toy_hash 1 2] [1; 2] = Ok 0.
Proof.
  split; [reflexivity|]. split; [reflexivity|]. split; [discriminate|].
  apply findDiffLeaf_equal_roots. reflexivity.
Qed.

Lemma ComputeMerkleRoot_distinct_not_mutated_witness :
  NoDup [1; 2; 3; 4; 5]
  /\ collision_free toy_hash (tree_pairs toy_hash [1; 2; 3; 4; 5])
  /\ exists root, ComputeMerkleRoot toy_hash [1; 2; 3; 4; 5] true = Ok (root, Some false).
Proof.
  assert (H1 : NoDup [1; 2; 3; 4; 5]) by NoDup_numerals.
  assert (H2 : collision_free toy_hash (tree_pairs toy_hash [1; 2; 3; 4; 5]))
    by (apply collision_freeb_sound; vm_compute; reflexivity).
  split; [exact H1|]. split; [exact H2|].
  exact (ComputeMerkleRoot_distinct_not_mutated toy_hash _ H1 H2).
Defined.

Lemma CalcHash_assertion_witness :
  CalcHash toy_hash 2 1 [] = Fault AssertionFailed
  /\ [1; 2; 3] <> []
  /\ CalcHash toy_hash 2 1 [1; 2; 3] <> Fault AssertionFailed.
Proof.
  assert (H : [1; 2; 3] <> []) by discriminate.
  split; [exact (proj1 (CalcHash_assertion toy_hash) 2 1)|].
  split; [exact H|].
  exact (proj2 (CalcHash_assertion toy_hash) [1; 2; 3] 2 1 H).
Defined.

Lemma CalcHash_in_bounds_witness :
  [1; 2; 3; 4; 5] <> [] /\ size [1; 2; 3; 4; 5] <= max_leaves
  /\ CalcTreeHeight [1; 2; 3; 4; 5] = Ok 3 /\ 0 <= 1 <= 3
  /\ CalcTreeWidth 1 (size [1; 2; 3; 4; 5]) = Ok 3 /\ 0 <= 2 < 3
  /\ exists x, CalcHash toy_hash 1 2 [1; 2; 3; 4; 5] = Ok x.
Proof.
  assert (H1 : [1; 2; 3; 4; 5] <> []) by discriminate.
  assert (H2 : size [1; 2; 3; 4; 5] <= max_leaves) by (vm_compute; discriminate).
  assert (H3 : CalcTreeHeight [1; 2; 3; 4; 5] = Ok 3) by reflexivity.
  assert (H4 : 0 <= 1 <= 3) by lia.
  assert (H5 : CalcTreeWidth 1 (size [1; 2; 3; 4; 5]) = Ok 3) by reflexivity.
  assert (H6 : 0 <= 2 < 3) by lia.
  repeat (split; [assumption|]).
  exact (CalcHash_in_bounds toy_hash _ 3 1 2 3 H1 H2 H3 H4 H5 H6).
Defined.

(** * The further properties at concrete inputs *)

Lemma CalcTreeWidth_halves_witness :
  0 <= 2 < 63 /\ 0 <= 11 <= max_leaves
  /\ exists width,
       CalcTreeWidth 2 11 = Ok width
       /\ CalcTreeWidth (2 + 1) 11 = Ok ((width + 1) / 2).
Proof.
  assert (H1 : 0 <= 2 < 63) by lia.
  assert (H2 : 0 <= 11 <= max_leaves) by (vm_compute; split; discriminate).
  split; [exact H1|]. split; [exact H2|].
  exact (CalcTreeWidth_halves 2 11 H1 H2).
Defined.

Lemma CalcTreeWidth_wraps_witness :
  1 <= 1 <= 63 /\ 2 ^ 64 - 2 ^ 1 < 18446744073709551615 < 2 ^ 64
  /\ CalcTreeWidth 1 18446744073709551615 = Ok 0.
Proof.
  assert (H1 : 1 <= 1 <= 63) by lia.
  assert (H2 : 2 ^ 64 - 2 ^ 1 < 18446744073709551615 < 2 ^ 64)
    by (vm_compute; split; reflexivity).
  split; [exact H1|]. split; [exact H2|].
  exact (CalcTreeWidth_wraps 1 18446744073709551615 H1 H2).
Defined.

Lemma CalcTreeHeight_log2_witness :
  2 <= size [1; 2; 3; 4; 5] <= max_leaves
  /\ exists height,
       CalcTreeHeight [1; 2; 3; 4; 5] = Ok height
       /\ 1 <= height <= 63
       /\ 2 ^ (height - 1) < size [1; 2; 3; 4; 5] <= 2 ^ height.
Proof.
  assert (H : 2 <= size [1; 2; 3; 4; 5] <= max_leaves)
    by (vm_compute; split; discriminate).
  split; [exact H|].
  exact (CalcTreeHeight_log2 [1; 2; 3; 4; 5] H).
Defined.

Lemma ComputeMerkleRoot_passes_witness :
  [1; 2; 3; 4; 5] <> [] /\ size [1; 2; 3; 4; 5] <= max_leaves
  /\ exists (height : nat) (root : uint256) (flag : option bool),
       CalcTreeHeight [1; 2; 3; 4; 5] = Ok (Z.of_nat height)
       /\ ComputeMerkleRoot toy_hash [1; 2; 3; 4; 5] true = Ok (root, flag)
       /\ level toy_hash height [1; 2; 3; 4; 5] = [root]
       /\ (forall h, (h <= height)%nat ->
             CalcTreeWidth (Z.of_nat h) (size [1; 2; 3; 4; 5])
             = Ok (size (level toy_hash h [1; 2; 3; 4; 5])))
       /\ (forall h, (h < height)%nat ->
             1 < size (level toy_hash h [1; 2; 3; 4; 5])).
Proof.
  assert (H1 : [1; 2; 3; 4; 5] <> []) by discriminate.
  assert (H2 : size [1; 2; 3; 4; 5] <= max_leaves) by (vm_compute; discriminate).
  split; [exact H1|]. split; [exact H2|].
  exact (ComputeMerkleRoot_passes toy_hash [1; 2; 3; 4; 5] true H1 H2).
Defined.

Lemma ComputeMerkleRoot_padded_odd_witness :
  Nat.odd (length [1; 2; 3]) = true /\ (1 < length [1; 2; 3])%nat
  /\ exists (root : uint256) (flag : option bool),
       ComputeMerkleRoot toy_hash [1; 2; 3] true = Ok (root, flag)
       /\ ComputeMerkleRoot toy_hash (push_back [1; 2; 3] (back [1; 2; 3])) true
          = Ok (root, Some true).
Proof.
  assert (H1 : Nat.odd (length [1; 2; 3]) = true) by reflexivity.
  assert (H2 : (1 < length [1; 2; 3])%nat) by (cbn [length]; lia).
  split; [exact H1|]. split; [exact H2|].
  exact (ComputeMerkleRoot_padded_odd toy_hash [1; 2; 3] true H1 H2).
Defined.

Lemma CalcHash_is_level_node_witness :
  [1; 2; 3; 4; 5] <> [] /\ size [1; 2; 3; 4; 5] <= max_leaves /\ (1 <= 64)%nat
  /\ nth_error (level toy_hash 1 [1; 2; 3; 4; 5]) 2 = Some 106
  /\ CalcHash toy_hash (Z.of_nat 1) (Z.of_nat 2) [1; 2; 3; 4; 5] = Ok 106.
Proof.
  assert (H1 : [1; 2; 3; 4; 5] <> []) by discriminate.
  assert (H2 : size [1; 2; 3; 4; 5] <= max_leaves) by (vm_compute; discriminate).
  assert (H3 : (1 <= 64)%nat) by lia.
  assert (H4 : nth_error (level toy_hash 1 [1; 2; 3; 4; 5]) 2 = Some 106)
    by reflexivity.
  repeat (split; [assumption|]).
  exact (CalcHash_is_level_node toy_hash [1; 2; 3; 4; 5] 1 2 106 H1 H2 H3 H4).
Defined.

Lemma CalcHash_beyond_width_witness :
  [1; 2; 3; 4; 5] <> [] /\ size [1; 2; 3; 4; 5] <= max_leaves /\ 0 <= 1 <= 63
  /\ CalcTreeWidth 1 (size [1; 2; 3; 4; 5]) = Ok 3
  /\ 3 <= 3 /\ 3 * 2 ^ 1 < 2 ^ 64
  /\ CalcHash toy_hash 1 3 [1; 2; 3; 4; 5] = Fault OutOfRange.
Proof.
  assert (H1 : [1; 2; 3; 4; 5] <> []) by discriminate.
  assert (H2 : size [1; 2; 3; 4; 5] <= max_leaves) by (vm_compute; discriminate).
  assert (H3 : 0 <= 1 <= 63) by lia.
  assert (H4 : CalcTreeWidth 1 (size [1; 2; 3; 4; 5]) = Ok 3) by reflexivity.
  assert (H5 : 3 <= 3) by lia.
  assert (H6 : 3 * 2 ^ 1 < 2 ^ 64) by reflexivity.
  repeat (split; [assumption|]).
  exact (CalcHash_beyond_width toy_hash [1; 2; 3; 4; 5] 1 3 3 H1 H2 H3 H4 H5 H6).
Defined.

Lemma CalcHash_subtree_local_witness :
  [1; 2; 3; 4; 5] <> [] /\ length [1; 2; 3; 4; 5] = length [1; 2; 9; 4; 7]
  /\ size [1; 2; 3; 4; 5] <= max_leaves /\ 0 <= 1 <= 63 /\ 0 <= 0
  /\ 0 * 2 ^ 1 < 2 ^ 64
  /\ (forall m : nat,
         0 * 2 ^ 1 <= Z.of_nat m < (0 + 1) * 2 ^ 1 ->
         nth_error [1; 2; 3; 4; 5] m = nth_error [1; 2; 9; 4; 7] m)
  /\ CalcHash toy_hash 1 0 [1; 2; 3; 4; 5] = CalcHash toy_hash 1 0 [1; 2; 9; 4; 7].
Proof.
  assert (H1 : [1; 2; 3; 4; 5] <> []) by discriminate.
  assert (H2 : length [1; 2; 3; 4; 5] = length [1; 2; 9; 4; 7]) by reflexivity.
  assert (H3 : size [1; 2; 3; 4; 5] <= max_leaves) by (vm_compute; discriminate).
  assert (H4 : 0 <= 1 <= 63) by lia.
  assert (H5 : 0 <= 0) by lia.
  assert (H6 : 0 * 2 ^ 1 < 2 ^ 64) by reflexivity.
  assert (H7 : forall m : nat,
             0 * 2 ^ 1 <= Z.of_nat m < (0 + 1) * 2 ^ 1 ->
             nth_error [1; 2; 3; 4; 5] m = nth_error [1; 2; 9; 4; 7] m).
  { intros m Hm. change ((0 + 1) * 2 ^ 1) with 2 in Hm.
    destruct m as [|[|m]]; try reflexivity. lia. }
  repeat (split; [assumption|]).
  exact (CalcHash_subtree_local toy_hash _ _ 1 0 H1 H2 H3 H4 H5 H6 H7).
Defined.

Lemma findDiffLeaf_first_difference_witness :
  length [1; 2; 3; 4; 5] = length [1; 2; 9; 4; 7]
  /\ (2 <= length [1; 2; 3; 4; 5])%nat
  /\ size [1; 2; 3; 4; 5] <= max_leaves
  /\ (forall m : nat, (m < 2)%nat ->
         nth_error [1; 2; 3; 4; 5] m = nth_error [1; 2; 9; 4; 7] m)
  /\ nth_error [1; 2; 3; 4; 5] 2 <> nth_error [1; 2; 9; 4; 7] 2
  /\ collision_free toy_hash
       (tree_pairs toy_hash [1; 2; 3; 4; 5] ++ tree_pairs toy_hash [1; 2; 9; 4; 7])
  /\ findDiffLeaf toy_hash [1; 2; 3; 4; 5] [1; 2; 9; 4; 7] = Ok (Z.of_nat 2).
Proof.
  assert (H1 : length [1; 2; 3; 4; 5] = length [1; 2; 9; 4; 7]) by reflexivity.
  assert (H2 : (2 <= length [1; 2; 3; 4; 5])%nat) by (cbn [length]; lia).
  assert (H3 : size [1; 2; 3; 4; 5] <= max_leaves) by (vm_compute; discriminate).
  assert (H4 : forall m : nat, (m < 2)%nat ->
             nth_error [1; 2; 3; 4; 5] m = nth_error [1; 2; 9; 4; 7] m).
  { intros m Hm. destruct m as [|[|m]]; try reflexivity. lia. }
  assert (H5 : nth_error [1; 2; 3; 4; 5] 2 <> nth_error [1; 2; 9; 4; 7] 2)
    by discriminate.
  assert (H6 : collision_free toy_hash
                 (tree_pairs toy_hash [1; 2; 3; 4; 5]
                  ++ tree_pairs toy_hash [1; 2; 9; 4; 7]))
    by (apply collision_freeb_sound; vm_compute; reflexivity).
  repeat (split; [assumption|]).
  exact (findDiffLeaf_first_difference toy_hash _ _ 2 H1 H2 H3 H4 H5 H6).
Defined.

Lemma findDiffLeaf_same_root_witness :
  merkle_root toy_hash [toy_hash 1 2; toy_hash 3 3] = merkle_root toy_hash [1; 2; 3; 3]
  /\ findDiffLeaf toy_hash [toy_hash 1 2; toy_hash 3 3] [1; 2; 3; 3] = Ok 0
  /\ findDiffLeaf toy_hash [toy_hash 1 2; toy_hash 3 3] [toy_hash 1 2; toy_hash 3 3] = Ok 0.
Proof.
  assert (H : merkle_root toy_hash [toy_hash 1 2; toy_hash 3 3]
              = merkle_root toy_hash [1; 2; 3; 3]) by reflexivity.
  split; [exact H|]. split.
  - exact (proj1 (findDiffLeaf_same_root toy_hash _ _) H).
  - exact (proj2 (findDiffLeaf_same_root toy_hash [toy_hash 1 2; toy_hash 3 3] [1; 2; 3; 3])).
Defined.

Lemma merkle_root_binding_witness :
  length [1; 2; 3] = length [1; 2; 3]
  /\ collision_free toy_hash (tree_pairs toy_hash [1; 2; 3] ++ tree_pairs toy_hash [1; 2; 3])
  /\ merkle_root toy_hash [1; 2; 3] = merkle_root toy_hash [1; 2; 3]
  /\ [1; 2; 3] = [1; 2; 3].
Proof.
  assert (H1 : length [1; 2; 3] = length [1; 2; 3]) by reflexivity.
  assert (H2 : collision_free toy_hash
                 (tree_pairs toy_hash [1; 2; 3] ++ tree_pairs toy_hash [1; 2; 3]))
    by (apply collision_freeb_sound; vm_compute; reflexivity).
  assert (H3 : merkle_root toy_hash [1; 2; 3] = merkle_root toy_hash [1; 2; 3])
    by reflexivity.
  repeat (split; [assumption|]).
  exact (merkle_root_binding toy_hash [1; 2; 3] [1; 2; 3] H1 H2 H3).
Defined.

Lemma ComputeMerkleRoot_of_pairs_witness :
  (1 < length [1; 2; 3])%nat
  /\ exists (root : uint256) (flag1 flag2 : option bool),
       ComputeMerkleRoot toy_hash [1; 2; 3] true = Ok (root, flag1)
       /\ ComputeMerkleRoot toy_hash
            (map (hash_pair toy_hash) (pairs_of [1; 2; 3])) true
          = Ok (root, flag2).
Proof.
  assert (H : (1 < length [1; 2; 3])%nat) by (cbn [length]; lia).
  split; [exact H|].
  exact (ComputeMerkleRoot_of_pairs toy_hash [1; 2; 3] true H).
Defined.
